(** * Route-Engine dashboard: data synchronisation layer

    A shallow embedding of the dashboard front end's data layer
    ([frontend/src/hooks/useApi.ts], the [App] component's refresh handler and
    [frontend/src/utils/formatters.ts]) together with the properties its
    specification states about it.

    Conventions.
    - Time is an integer number of milliseconds on the event-loop clock.
    - A JavaScript promise is observed from outside: either it never settles,
      or it settles at some instant, fulfilled with a value or rejected with an
      error.  An [async] function is a computation started at an instant that
      records the React state writes it performs and yields such a promise.
    - A JavaScript number is an IEEE 754 double ([Module Double]): [NaN], an
      infinity, or a finite double given by its exact rational value; the
      arithmetic operators round their exact result to the nearest double,
      ties to even.  The two zeros are one value: the code modelled here
      never divides by a variable, and comparison and printing do not tell
      them apart.  Where a function only compares a number with integer
      literals and prints it with [toFixed], it is given on the exact value
      [Q] of a finite number below 1e21; integers that are printed with
      template literals are [Z], within the safe integers.
    - The [swr] package is imported by [useApi.ts] but is not part of the
      sources; its cache, deduplication and revalidation are modelled in
      [Module Sync] from the specification (sections 3 and 4). *)

From Stdlib Require Import ZArith QArith Qround Qabs Qpower Ascii String DecimalString DecimalZ Lia Lqa.
From stdpp Require Import gmap strings list.

Open Scope Z_scope.

(* ===================================================================== *)
(** * JavaScript values, numbers and promises *)
(* ===================================================================== *)

Module Js.

(** Milliseconds on the event-loop clock. *)
Definition Instant := Z.

(** [String(n)] / template interpolation of an integer number. *)
Definition showZ (z : Z) : string := NilZero.string_of_int (Z.to_int z).

(** The inverse reading of a decimal literal. *)
Definition readZ (s : string) : option Z := Z.of_int <$> NilZero.int_of_string s.

(** [s.startsWith(p) ? s.slice(p.length) : undefined] *)
Fixpoint strip_prefix (p s : string) : option string :=
  match p, s with
  | EmptyString, _ => Some s
  | String a p', String b s' => if Ascii.eqb a b then strip_prefix p' s' else None
  | String _ _, EmptyString => None
  end.

(** The error objects that reach the data layer, by constructor. *)
Inductive JsError :=
| Error (message : string)        (* new Error(message) *)
| TypeError (message : string)    (* thrown by fetch on a network failure *)
| SyntaxError (message : string). (* thrown by JSON parsing *)

Inductive settled (A : Type) :=
| Fulfilled (v : A)
| Rejected (e : JsError).
Arguments Fulfilled {A} v.
Arguments Rejected {A} e.

(** [None]: the promise stays pending for ever. *)
Definition promise (A : Type) := option (Instant * settled A).

(** What the run of an async function leaves behind: the writes to the
    boolean React state it touches, in execution order, and the promise it
    returned. *)
Record Run (A : Type) := MkRun {
  writes : list (Instant * bool);
  outcome : promise A
}.
Arguments MkRun {A} writes outcome.
Arguments writes {A} r.
Arguments outcome {A} r.

(** An async computation, started at the given instant. *)
Definition Async (A : Type) := Instant -> Run A.

Definition ret {A} (v : A) : Async A :=
  fun now => MkRun [] (Some (now, Fulfilled v)).

Definition throw {A} (e : JsError) : Async A :=
  fun now => MkRun [] (Some (now, Rejected e)).

(** Sequencing: the continuation starts when the first part has fulfilled;
    a rejection or a pending promise ends the computation there. *)
Definition bind {A B} (m : Async A) (k : A -> Async B) : Async B :=
  fun now =>
    let r := m now in
    match outcome r with
    | Some (t, Fulfilled v) =>
        let r' := k v t in
        MkRun (writes r ++ writes r') (outcome r')
    | Some (t, Rejected e) => MkRun (writes r) (Some (t, Rejected e))
    | None => MkRun (writes r) None
    end.

(** [await p]: resume when [p] has settled, not before the current instant. *)
Definition await {A} (p : promise A) : Async A :=
  fun now =>
    MkRun [] (match p with
              | Some (t, o) => Some (Z.max now t, o)
              | None => None
              end).

(** [p.catch(() => null)] *)
Definition catch_null {A} (p : promise A) : promise (option A) :=
  match p with
  | Some (t, Fulfilled v) => Some (t, Fulfilled (Some v))
  | Some (t, Rejected _) => Some (t, Fulfilled None)
  | None => None
  end.

(** The earliest rejection among the given promises (the leftmost of
    simultaneous ones). *)
Fixpoint first_rejection {A} (ps : list (promise A)) : option (Instant * JsError) :=
  match ps with
  | [] => None
  | p :: ps' =>
      let rest := first_rejection ps' in
      match p with
      | Some (t, Rejected e) =>
          match rest with
          | Some (t', e') => if t' <? t then Some (t', e') else Some (t, e)
          | None => Some (t, e)
          end
      | _ => rest
      end
  end.

(** All values and the instant the last one arrived, when every promise
    fulfils. *)
Fixpoint all_fulfilled {A} (now : Instant) (ps : list (promise A))
  : option (Instant * list A) :=
  match ps with
  | [] => Some (now, [])
  | Some (t, Fulfilled v) :: ps' =>
      match all_fulfilled now ps' with
      | Some (t', vs) => Some (Z.max t t', v :: vs)
      | None => None
      end
  | _ => None
  end.

(** [Promise.all(ps)] called at [now]: rejects as soon as one member
    rejects, fulfils once every member has fulfilled. *)
Definition Promise_all {A} (now : Instant) (ps : list (promise A))
  : promise (list A) :=
  match first_rejection ps with
  | Some (t, e) => Some (Z.max now t, Rejected e)
  | None =>
      match all_fulfilled now ps with
      | Some (t, vs) => Some (t, Fulfilled vs)
      | None => None
      end
  end.

(** [setTimeout(cb, delay)]: the callback runs [delay] ms later; the call
    itself returns at once.  The callback's own promise is dropped. *)
Definition setTimeout (cb : Async unit) (delay : Z) : Async unit :=
  fun now => MkRun (writes (cb (now + delay))) (Some (now, Fulfilled tt)).

(** A [useState] setter. *)
Definition set_state (b : bool) : Async unit :=
  fun now => MkRun [(now, b)] (Some (now, Fulfilled tt)).

(** The value of a [useState] cell at instant [t], given its initial value
    and the writes made to it. *)
Definition state_at (init : bool) (ws : list (Instant * bool)) (t : Instant) : bool :=
  fold_left (fun cur w => if fst w <=? t then snd w else cur) ws init.

(** [Math.floor], [Math.round] (halves round up) and the [%] operator
    (truncated division: the result has the sign of the dividend). *)
Definition Math_floor (x : Q) : Z := Qfloor x.

Definition Math_round (x : Q) : Z := Qfloor (x + (1 # 2))%Q.

Definition trunc (x : Q) : Z :=
  if Qle_bool 0 x then Qfloor x else Qceiling x.

Definition rem (x y : Q) : Q := (x - y * inject_Z (trunc (x / y)))%Q.

(** [x < y] on numbers. *)
Definition ltb (x y : Q) : bool := negb (Qle_bool y x).

(** [Number.isSafeInteger]: the integers every arithmetic and printing
    operation treats exactly. *)
Definition safe_integer (n : Z) : Prop := - (2 ^ 53 - 1) <= n <= 2 ^ 53 - 1.

(** [x >= y] on numbers. *)
Definition geb (x y : Q) : bool := Qle_bool y x.

(** A run of [n] zeros, and [s.padStart(n, "0")]. *)
Fixpoint zeros (n : nat) : string :=
  match n with
  | O => EmptyString
  | S n' => String "0"%char (zeros n')
  end.

Definition padStart0 (n : nat) (s : string) : string :=
  zeros (n - String.length s) +:+ s.

(** [x.toFixed(f)], for numbers below 1e21 in absolute value: the sign,
    then the integer [n] nearest to |x| * 10^f (the larger one of two),
    written with [f] digits after the point. *)
Definition toFixed (f : nat) (x : Q) : string :=
  let scale := 10 ^ Z.of_nat f in
  let n := Qfloor (Qabs x * inject_Z scale + (1 # 2))%Q in
  let sign := if ltb x 0 then "-" else EmptyString in
  let whole := showZ (n / scale) in
  match f with
  | O => sign +:+ whole
  | S _ => sign +:+ whole +:+ "." +:+ padStart0 f (showZ (n mod scale))
  end.

(** [s.replace(c, r)] for a one-character pattern [c] and a replacement
    without [$]: the first occurrence is replaced, the others stay. *)
Fixpoint replace (c : Ascii.ascii) (r : string) (s : string) : string :=
  match s with
  | EmptyString => EmptyString
  | String a s' => if Ascii.eqb a c then r +:+ s' else String a (replace c r s')
  end.

(** The number of occurrences of a character. *)
Fixpoint occurrences (c : Ascii.ascii) (s : string) : nat :=
  match s with
  | EmptyString => O
  | String a s' => ((if Ascii.eqb a c then 1 else 0) + occurrences c s')%nat
  end.


End Js.

Notation "'let*' x ':=' m 'in' k" := (Js.bind m (fun x => k))
  (at level 10, x name, m at level 100, k at level 200, only parsing).
Notation "m ';;' k" := (Js.bind m (fun _ => k))
  (at level 100, k at level 200, only parsing).

(* ===================================================================== *)
(** * Numbers: IEEE 754 doubles *)
(* ===================================================================== *)

Module Double.
Import Js.

(** A number value.  A finite one is given by its exact value, which is a
    double: an integer of less than 2^53 in absolute value times a power
    of two between 2^-1074 and 2^971. *)
Inductive number :=
| NaN
| Infinity (negative : bool)
| Finite (value : Q).

(** The integer nearest to a rational, the even one of two. *)
Definition round_half_even (x : Q) : Z :=
  let f := Qfloor x in
  match (x - inject_Z f ?= 1 # 2)%Q with
  | Lt => f
  | Gt => f + 1
  | Eq => if Z.even f then f else f + 1
  end.

(** For a positive rational, the exponent [p] with 2^p <= a < 2^(p+1). *)
Definition ilog2 (a : Q) : Z :=
  let p := Z.log2 (Qnum a) - Z.log2 (Zpos (Qden a)) in
  if Qle_bool (2 ^ p) a then p else p - 1.

(** The number an exact result becomes: the nearest double, the one with
    the even significand of two, and an infinity from 2^1024 - 2^970 on.
    The significand has 53 bits, the last place is 2^-1074 at least. *)
Definition binary64 (q : Q) : number :=
  if Qeq_bool q 0 then Finite 0
  else
    let a := Qabs q in
    let e := Z.max (ilog2 a - 52) (-1074) in
    let r := (inject_Z (round_half_even (a / 2 ^ e)) * 2 ^ e)%Q in
    if Qle_bool (2 ^ 1024) r then Infinity (ltb q 0)
    else Finite (Qred (if ltb q 0 then - r else r)).

(** The rationals that are doubles. *)
Definition is_double (q : Q) : bool :=
  match binary64 q with
  | Finite r => Qeq_bool r q
  | _ => false
  end.

(** [x < y] *)
Definition lt (x y : number) : bool :=
  match x, y with
  | NaN, _ | _, NaN => false
  | Infinity true, Infinity true => false
  | Infinity true, _ => true
  | _, Infinity true => false
  | Infinity false, _ => false
  | _, Infinity false => true
  | Finite a, Finite b => ltb a b
  end.

(** [x >= y] *)
Definition ge (x y : number) : bool :=
  match x, y with
  | NaN, _ | _, NaN => false
  | _, _ => negb (lt x y)
  end.

(** [-x] *)
Definition neg (x : number) : number :=
  match x with
  | NaN => NaN
  | Infinity s => Infinity (negb s)
  | Finite a => Finite (- a)
  end.

(** [x + y] *)
Definition add (x y : number) : number :=
  match x, y with
  | NaN, _ | _, NaN => NaN
  | Infinity s, Infinity s' => if Bool.eqb s s' then Infinity s else NaN
  | Infinity s, Finite _ | Finite _, Infinity s => Infinity s
  | Finite a, Finite b => binary64 (a + b)
  end.

(** [x - y] *)
Definition sub (x y : number) : number := add x (neg y).

(** [x * y] *)
Definition mul (x y : number) : number :=
  match x, y with
  | NaN, _ | _, NaN => NaN
  | Infinity s, Infinity s' => Infinity (xorb s s')
  | Infinity s, Finite b | Finite b, Infinity s =>
      if Qeq_bool b 0 then NaN else Infinity (xorb s (ltb b 0))
  | Finite a, Finite b => binary64 (a * b)
  end.

(** [x / y].  A zero divisor counts as +0: the sign of a zero is not kept,
    and the code divides by the literals 60, 180 and 1000 only. *)
Definition div (x y : number) : number :=
  match x, y with
  | NaN, _ | _, NaN => NaN
  | Infinity _, Infinity _ => NaN
  | Infinity s, Finite b => Infinity (xorb s (ltb b 0))
  | Finite _, Infinity _ => Finite 0
  | Finite a, Finite b =>
      if Qeq_bool b 0 then (if Qeq_bool a 0 then NaN else Infinity (ltb a 0))
      else binary64 (a / b)
  end.

(** [x % y]: the remainder of the truncated division, which is exact. *)
Definition rem (x y : number) : number :=
  match x, y with
  | NaN, _ | _, NaN => NaN
  | Infinity _, _ => NaN
  | Finite a, Infinity _ => Finite a
  | Finite a, Finite b => if Qeq_bool b 0 then NaN else Finite (Js.rem a b)
  end.

(** What [Math.floor] and [Math.round] return: a number without
    fractional part. *)
Inductive integral :=
| NotANumber
| Unbounded (negative : bool)
| Int (z : Z).

(** [Math.floor(x)] *)
Definition floor (x : number) : integral :=
  match x with
  | NaN => NotANumber
  | Infinity s => Unbounded s
  | Finite a => Int (Math_floor a)
  end.

(** [Math.round(x)] *)
Definition round (x : number) : integral :=
  match x with
  | NaN => NotANumber
  | Infinity s => Unbounded s
  | Finite a => Int (Math_round a)
  end.

(** Whether the integer [x] is read back as the double [v], an integer of
    at least 1e21: [x] lies within half a unit in the last place of [v],
    the bounds included when the significand of [v] is even; below a power
    of two the doubles are twice as dense. *)
Definition rounds_to (v x : Z) : bool :=
  let e := Z.log2 v - 52 in
  let m := v / 2 ^ e in
  let up := 2 ^ (e - 1) in
  let down := if m =? 2 ^ 52 then 2 ^ (e - 2) else 2 ^ (e - 1) in
  if Z.even m then (v - down <=? x) && (x <=? v + up)
  else (v - down <? x) && (x <? v + up).

(** The decimal with the fewest significant digits that is read back as
    the double [v], the nearest to [v] of those: tried with [k], [k] + 1,
    ... digits; 17 digits tell any two doubles apart. *)
Fixpoint shortest (fuel : nat) (k : Z) (v : Z) : Z :=
  match fuel with
  | O => v
  | S fuel' =>
      let u := 10 ^ (Z.of_nat (String.length (showZ v)) - k) in
      let below := v / u * u in
      let above := below + u in
      match rounds_to v below, rounds_to v above with
      | true, true => if v - below <=? above - v then below else above
      | true, false => below
      | false, true => above
      | false, false => shortest fuel' (k + 1) v
      end
  end.

(** A decimal without its trailing zeros. *)
Fixpoint strip_zeros (s : string) : string :=
  match s with
  | EmptyString => EmptyString
  | String a s' =>
      match strip_zeros s' with
      | EmptyString => if Ascii.eqb a "0" then EmptyString else String a EmptyString
      | rest => String a rest
      end
  end.

(** The exponent notation of a double of at least 1e21: the digits of
    [shortest], a point after the first when there are more, and the
    decimal exponent. *)
Definition exponential (v : Z) : string :=
  let all := showZ (shortest 17 1 v) in
  let exponent := showZ (Z.of_nat (String.length all) - 1) in
  match strip_zeros all with
  | EmptyString => "0"
  | String d EmptyString => String d EmptyString +:+ "e+" +:+ exponent
  | String d more => String d EmptyString +:+ "." +:+ more +:+ "e+" +:+ exponent
  end.

(** [String(x)] and [`${x}`] for a number without fractional part: the
    decimal digits below 1e21, the exponent notation from there on. *)
Definition toString (i : integral) : string :=
  match i with
  | NotANumber => "NaN"
  | Unbounded false => "Infinity"
  | Unbounded true => "-Infinity"
  | Int z =>
      if Z.abs z <? 10 ^ 21 then showZ z
      else (if z <? 0 then "-" else EmptyString) +:+ exponential (Z.abs z)
  end.

(** [x.toFixed(f)]: from 1e21 on, and for [NaN] and the infinities, it is
    [String(x)]. *)
Definition toFixed (f : nat) (x : number) : string :=
  match x with
  | NaN => "NaN"
  | Infinity s => toString (Unbounded s)
  | Finite a =>
      if Qle_bool (inject_Z (10 ^ 21)) (Qabs a) then toString (Int (Qfloor a))
      else Js.toFixed f a
  end.

End Double.

(* ===================================================================== *)
(** * frontend/src/utils/formatters.ts *)
(* ===================================================================== *)

Module Formatters.
Import Js.

Definition formatDuration (minutes : option Double.number) : string :=
  match minutes with
  | None => "N/A"
  | Some minutes =>
      if Double.lt minutes (Double.Finite 60)
      then Double.toString (Double.round minutes) +:+ "min"
      else
        let hours := Double.floor (Double.div minutes (Double.Finite 60)) in
        let mins := Double.round (Double.rem minutes (Double.Finite 60)) in
        Double.toString hours +:+ "h " +:+ Double.toString mins +:+ "m"
  end.

Definition formatPercentage (value : Double.number) : string :=
  Double.toFixed 1 value +:+ "%".

Definition formatWeight (kg : Double.number) : string :=
  if Double.ge kg (Double.Finite 1000)
  then Double.toFixed 1 (Double.div kg (Double.Finite 1000)) +:+ "t"
  else Double.toFixed 1 kg +:+ "kg".


End Formatters.

(* ===================================================================== *)
(** * frontend/src/hooks/useApi.ts *)
(* ===================================================================== *)

Module UseApi.
Import Js.

Definition API_BASE : string := "/api/v1/dashboard".

(** ** The platform's [fetch] *)

(** What reading a response body as JSON yields. *)
Inductive Body (T : Type) :=
| Json (v : T)                 (* a well-formed JSON document *)
| Malformed (message : string) (* not JSON: [json()] rejects with a SyntaxError *)
| Truncated (message : string). (* the transfer broke: [json()] rejects with a TypeError *)
Arguments Json {T} v.
Arguments Malformed {T} message.
Arguments Truncated {T} message.

Record Response (T : Type) := MkResponse {
  status : Z;
  body : Body T;
  body_at : Instant   (* when the body has been read *)
}.
Arguments MkResponse {T} status body body_at.
Arguments status {T} r.
Arguments body {T} r.
Arguments body_at {T} r.

(** [response.ok]: the status is in the range 200-299. *)
Definition ok {T} (r : Response T) : bool :=
  (200 <=? status r) && (status r <=? 299).

(** [response.json()] *)
Definition json {T} (r : Response T) : promise T :=
  Some (body_at r,
        match body r with
        | Json v => Fulfilled v
        | Malformed m => Rejected (SyntaxError m)
        | Truncated m => Rejected (TypeError m)
        end).

(** What the network does with one request. *)
Inductive Wire (T : Type) :=
| Silent                                 (* no answer, ever *)
| Failed (at_ : Instant) (message : string)   (* DNS, connection, ... *)
| Responded (at_ : Instant) (r : Response T).  (* any HTTP status *)
Arguments Silent {T}.
Arguments Failed {T} at_ message.
Arguments Responded {T} at_ r.

(** The network: the fate of a request for a URL issued at an instant. *)
Definition Network (T : Type) := string -> Instant -> Wire T.

(** [fetch(url)]: rejects with a TypeError on a network failure, fulfils
    with the response whatever its status. *)
Definition fetch {T} (net : Network T) (url : string) (now : Instant)
  : promise (Response T) :=
  match net url now with
  | Silent => None
  | Failed t m => Some (t, Rejected (TypeError m))
  | Responded t r => Some (t, Fulfilled r)
  end.

(** ** [fetcher] *)

Definition fetcher {T} (net : Network T) (url : string) : Async T :=
  fun now =>
    (let* response := await (fetch net url now) in
     if negb (ok response)
     then throw (Error ("API error: " +:+ showZ (status response)))
     else await (json response)) now.

(** The error taxonomy of the data layer, read off a rejection value:
    a network failure is the TypeError of [fetch], a decoding failure the
    SyntaxError of [json()], an HTTP failure the Error whose message
    [fetcher] builds from the status. *)
Inductive ErrorKind :=
| NetworkError
| HTTPError (status : Z)
| DecodeError.

Definition classify (e : JsError) : option ErrorKind :=
  match e with
  | TypeError _ => Some NetworkError
  | SyntaxError _ => Some DecodeError
  | Error m =>
      match strip_prefix "API error: " m with
      | Some digits => HTTPError <$> readZ digits
      | None => None
      end
  end.

(** ** The three resource hooks: the key and the options given to [useSWR] *)

Record SWRConfiguration := MkConfig {
  refreshInterval : Z;             (* ms *)
  revalidateOnFocus : bool;
  dedupingInterval : option Z      (* ms; [None]: not given *)
}.

Record Hook := MkHook {
  key : string;
  options : SWRConfiguration
}.

Definition useDashboardOverview : Hook :=
  MkHook (API_BASE +:+ "/overview")
         (MkConfig 30000 true (Some 5000)).

Definition useChartsData : Hook :=
  MkHook (API_BASE +:+ "/charts")
         (MkConfig 60000 true None).

(** [limit]: the argument, [None] when the caller passes none. *)
Definition useRecentActivities (limit : option Z) : Hook :=
  let limit := default 20 limit in
  MkHook (API_BASE +:+ "/recent-activities?limit=" +:+ showZ limit)
         (MkConfig 15000 true None).

(** The [limit] query parameter of a recent-activities URL, if it has one. *)
Definition limit_of (url : string) : option Z :=
  match strip_prefix (API_BASE +:+ "/recent-activities?limit=") url with
  | Some digits => readZ digits
  | None => None
  end.

(** ** [refreshAllData] *)

Definition endpoints : list string :=
  ["/overview"; "/charts"; "/recent-activities"].

(** The URLs [refreshAllData] requests. *)
Definition refreshAllData_urls : list string :=
  map (fun endpoint => API_BASE +:+ endpoint) endpoints.

Definition refreshAllData {T} (net : Network T) : Async unit :=
  fun now =>
    (await (Promise_all now
              (map (fun endpoint =>
                      catch_null (fetch net (API_BASE +:+ endpoint) now))
                   endpoints)) ;;
     ret tt) now.

End UseApi.

(* ===================================================================== *)
(** * The synchronisation core behind [useSWR] *)
(* ===================================================================== *)

Module Sync.
Import Js.

Section Store.
Context {T : Type}.

(** Modelled from the spec: the cache entry of [swr], a package the hooks
    import and that is not among the sources; after section 3
    (CacheEntry). *)
Record CacheEntry := MkEntry {
  data : option T;
  error : option JsError;
  fetchedAt : option Instant;
  isValidating : bool
}.

(** Modelled from the spec: the entry of a key [swr] has not fetched yet
    (section 3: [data] is undefined until the first success). *)
Definition empty_entry : CacheEntry := MkEntry None None None false.

(** Modelled from the spec: the partial update the cache of [swr] takes,
    after section 4.1, [set(key, patch)]; an absent field is left as it
    is. *)
Record Patch := MkPatch {
  patch_data : option (option T);
  patch_error : option (option JsError);
  patch_fetchedAt : option (option Instant);
  patch_isValidating : option bool
}.

(** Modelled from the spec: how the cache of [swr] applies a partial
    update (4.1). *)
Definition apply_patch (p : Patch) (e : CacheEntry) : CacheEntry :=
  MkEntry (default (data e) (patch_data p))
          (default (error e) (patch_error p))
          (default (fetchedAt e) (patch_fetchedAt p))
          (default (isValidating e) (patch_isValidating p)).

(** Modelled from the spec: the state [swr] keeps behind the hooks: the
    Resource Cache (4.1), the Deduplicator's in-flight registry (4.2, and
    the design note in section 9: a map from key to a shared completion
    handle), the values the settled handles delivered to their waiters,
    and the log of Fetch Client invocations (newest first). *)
Record Store := MkStore {
  cache : gmap string CacheEntry;
  inflight : gmap string nat;
  resolved : gmap nat (settled T);
  fetchLog : list (string * nat);
  nextId : nat
}.

(** Modelled from the spec: the state of [swr] when the dashboard starts:
    nothing cached, nothing in flight. *)
Definition init : Store := MkStore ∅ ∅ ∅ [] 0%nat.

(** Modelled from the spec: [get(key)] on the cache of [swr] (4.1). *)
Definition get (k : string) (s : Store) : option CacheEntry := cache s !! k.

(** Modelled from the spec: [set(key, patch)] on the cache of [swr] (4.1);
    a key seen for the first time starts from the empty entry. *)
Definition set (k : string) (p : Patch) (s : Store) : Store :=
  MkStore (<[k := apply_patch p (default empty_entry (cache s !! k))]> (cache s))
          (inflight s) (resolved s) (fetchLog s) (nextId s).

(** Modelled from the spec: what [useSWR] hands to a hook, the read
    accessor of section 6, which returns [{data, error, isValidating}] for
    a key. *)
Definition read (k : string) (s : Store) : option T * option JsError * bool :=
  let e := default empty_entry (get k s) in
  (data e, error e, isValidating e).

(** Modelled from the spec: the deduplication inside [swr], as
    [run(key, fetchFn)] of 4.2.  An open in-flight promise for the key is
    handed to the caller as it is; otherwise the fetch function is invoked
    and the new promise recorded. *)
Definition run (k : string) (s : Store) : nat * Store :=
  match inflight s !! k with
  | Some p => (p, s)
  | None =>
      let p := nextId s in
      (p, MkStore (cache s) (<[k := p]> (inflight s)) (resolved s)
                  ((k, p) :: fetchLog s) (S p))
  end.

(** Modelled from the spec: the revalidation [swr] performs for a key, the
    per-resource primitive of 4.3: mark the entry as validating, then go
    through the Deduplicator. *)
Definition revalidate (k : string) (s : Store) : nat * Store :=
  run k (set k (MkPatch None None None (Some true)) s).

(** Modelled from the spec: what [swr] writes to the cache when a fetch
    settles (4.3 and the stale-while-error policy of section 3): a success
    replaces the data, stamps [fetchedAt] and clears the error; a failure
    only records the error. *)
Definition commit (o : settled T) (now : Instant) : Patch :=
  match o with
  | Fulfilled v => MkPatch (Some (Some v)) (Some None) (Some (Some now)) (Some false)
  | Rejected e => MkPatch None (Some (Some e)) None (Some false)
  end.

(** Modelled from the spec: the settlement of a key's in-flight fetch
    inside [swr] (4.2, 4.3): the Deduplicator clears its record, every
    waiter receives the outcome, the cache takes the result. *)
Definition settle (k : string) (o : settled T) (now : Instant) (s : Store) : Store :=
  match inflight s !! k with
  | None => s
  | Some p =>
      set k (commit o now)
          (MkStore (cache s) (delete k (inflight s)) (<[p := o]> (resolved s))
                   (fetchLog s) (nextId s))
  end.

(** Modelled from the spec: the Scheduler state of [swr] (4.3): a key is
    Fetching while the Deduplicator holds an in-flight promise for it. *)
Definition fetching (k : string) (s : Store) : bool :=
  bool_decide (is_Some (inflight s !! k)).

(** Modelled from the spec: the triggers [swr] reacts to (4.3, 4.4, 6) and
    the completion of a fetch. *)
Inductive event :=
| Tick (k : string)                   (* the key's interval timer fires *)
| Focus (k : string)                  (* the window regains focus *)
| Refresh (k : string)                (* the key's bound [refresh()] *)
| Settle (k : string) (o : settled T). (* the key's fetch settles *)

(** Modelled from the spec: how [swr] handles one event: 4.3 (a tick or
    focus while Fetching is a no-op) and 4.4 (the manual refresh takes the
    same fetch path). *)
Definition step (s : Store) (te : Instant * event) : Store :=
  match te.2 with
  | Tick k | Focus k => if fetching k s then s else (revalidate k s).2
  | Refresh k => (revalidate k s).2
  | Settle k o => settle k o te.1 s
  end.

(** Modelled from the spec: the single-threaded event loop of section 5
    driving [swr]: timed events are handled one after the other. *)
Definition play (evs : list (Instant * event)) (s : Store) : Store :=
  fold_left step evs s.

(** The stores the event loop can bring about. *)
Definition reachable (s : Store) : Prop := ∃ evs, s = play evs init.

(** [n] callers asking the Deduplicator for the same key, one after the
    other with no settlement in between. *)
Fixpoint run_many (n : nat) (k : string) (s : Store) : list nat * Store :=
  match n with
  | O => ([], s)
  | S n' =>
      let '(p, s1) := run k s in
      let '(ps, s2) := run_many n' k s1 in
      (p :: ps, s2)
  end.

(** The Fetch Client invocations for a key, and those of them still in
    flight. *)
Definition invocations (k : string) (s : Store) : list (string * nat) :=
  List.filter (fun kp => bool_decide (kp.1 = k)) (fetchLog s).

Definition pending (s : Store) (p : nat) : bool :=
  match resolved s !! p with
  | None => true
  | Some _ => false
  end.

Definition in_flight (k : string) (s : Store) : list (string * nat) :=
  List.filter (fun kp => pending s kp.2) (invocations k s).



(** The stored payload of a key and the instant it was stored. *)
Definition stamp (k : string) (s : Store) : option T * option Instant :=
  let e := default empty_entry (get k s) in
  (data e, fetchedAt e).

(** Consistency of the registry with the invocation log: an open
    promise belongs to a logged, unsettled invocation of its key; an
    unsettled logged invocation is the open promise of its key; promise
    identifiers are issued once and settled ones have been issued. *)
Definition wf (s : Store) : Prop :=
  (∀ k p, inflight s !! k = Some p →
          (k, p) ∈ fetchLog s ∧ resolved s !! p = None) ∧
  (∀ k p, (k, p) ∈ fetchLog s →
          (p < nextId s)%nat ∧
          (resolved s !! p = None → inflight s !! k = Some p)) ∧
  (∀ p o, resolved s !! p = Some o → (p < nextId s)%nat) ∧
  NoDup (fetchLog s).*2.

(** Modelled from the spec: the bound [mutate] of [swr] that a hook
    returns as [refresh], as a promise: it settles when the fetch it waits
    for does and never rejects; a failure goes to the cache entry (4.4,
    section 7). *)
Definition refresh (fetching_ : promise T) : promise unit :=
  match fetching_ with
  | Some (t, _) => Some (t, Fulfilled tt)
  | None => None
  end.

End Store.

Arguments CacheEntry T : clear implicits.
Arguments Patch T : clear implicits.
Arguments Store T : clear implicits.
Arguments event T : clear implicits.

End Sync.

(* ===================================================================== *)
(** * The [App] component: the manual refresh handler *)
(* ===================================================================== *)

Module App.
Import Js.

(** [const [isRefreshing, setIsRefreshing] = useState(false)] *)
Definition isRefreshing_init : bool := false.
Definition setIsRefreshing : bool -> Async unit := set_state.

(** [handleRefresh], over the three [refresh] callbacks the hooks return;
    each is called at the current instant and returns a promise. *)
Definition handleRefresh {D}
    (refreshOverview refreshCharts refreshActivities : Instant -> promise D)
  : Async unit :=
  setIsRefreshing true ;;
  (fun now =>
     await (Promise_all now
              [refreshOverview now; refreshCharts now; refreshActivities now])
           now) ;;
  setTimeout (setIsRefreshing false) 500.

(** The handler as the component wires it: each callback is the [refresh]
    its hook returns, that is the [mutate] of [useSWR] bound to the hook's
    key.  [mutate] belongs to the [swr] package and is a parameter here:
    called at an instant it revalidates the key through [fetcher] and
    returns a promise that depends on the promise of that fetch.
    [useRecentActivities()] is called without an argument. *)
Definition handleRefresh_wired {T D} (mutate : promise T -> promise D)
    (net : UseApi.Network T) : Async unit :=
  handleRefresh
    (fun now => mutate (outcome (UseApi.fetcher net (UseApi.key UseApi.useDashboardOverview) now)))
    (fun now => mutate (outcome (UseApi.fetcher net (UseApi.key UseApi.useChartsData) now)))
    (fun now => mutate (outcome (UseApi.fetcher net (UseApi.key (UseApi.useRecentActivities None)) now))).

(** The [isRefreshing] flag the header sees at instant [t], for one run of
    the handler. *)
Definition isRefreshing {A} (r : Run A) (t : Instant) : bool :=
  state_at isRefreshing_init (writes r) t.

(** The Refresh button of the header, [onClick={onRefresh}] and
    [disabled={isRefreshing}], with [onRefresh={handleRefresh}]: a click at
    instant [t], given the writes made to the flag so far.  A click on the
    disabled button does nothing. *)
Definition click {D}
    (refreshOverview refreshCharts refreshActivities : Instant -> promise D)
    (ws : list (Instant * bool)) (t : Instant) : list (Instant * bool) :=
  if state_at isRefreshing_init ws t then ws
  else ws ++ writes (handleRefresh refreshOverview refreshCharts refreshActivities t).

(** A session of clicks, in the order they happen. *)
Definition clicks {D}
    (refreshOverview refreshCharts refreshActivities : Instant -> promise D)
    (ts : list Instant) : list (Instant * bool) :=
  fold_left (click refreshOverview refreshCharts refreshActivities) ts [].

(** Click instants in the order of the clock. *)
Fixpoint in_order (ts : list Instant) : bool :=
  match ts with
  | [] => true
  | t :: rest =>
      match rest with
      | [] => true
      | u :: _ => (t <=? u) && in_order rest
      end
  end.

(** A log of writes read from the left, [busy] telling whether a run is
    open and [lo] being the instant of the last write read: the runs of the
    handler follow one another when every [true] is written with no run
    open and not before [lo], and every [false] closes the open run at
    least 500 ms after its [true]. *)
Fixpoint runs_in_turn (busy : bool) (lo : Instant) (ws : list (Instant * bool)) : bool :=
  match ws with
  | [] => true
  | (a, v) :: ws' =>
      match busy, v with
      | false, true => (lo <=? a) && runs_in_turn true a ws'
      | true, false => (lo + 500 <=? a) && runs_in_turn false a ws'
      | _, _ => false
      end
  end.

(** Where reading a log ends: whether a run is left open, and the instant
    of the last write. *)
Fixpoint log_end (busy : bool) (lo : Instant) (ws : list (Instant * bool))
  : bool * Instant :=
  match ws with
  | [] => (busy, lo)
  | (a, v) :: ws' => log_end v a ws'
  end.

(** ** The tab bodies the component renders *)

Inductive TabType := overview | analytics | activities.

Inductive Resource := Overview | Charts | Activities.

(** A rendered component: a skeleton, or a component fed from the data of
    a resource. *)
Inductive Widget :=
| Skeleton (name : string)
| Content (name : string) (source : Resource).

(** What the hooks hand to the component: per resource, whether data is
    there and the [isLoading] flag. *)
Record Feed := MkFeed {
  present : Resource -> bool;
  isLoading : Resource -> bool
}.

(** [loading ? skeletons : data ? content : null] *)
Definition section (f : Feed) (r : Resource) (skeletons content : list Widget)
  : list Widget :=
  if isLoading f r then skeletons
  else if present f r then content
  else [].

(** [data && content] *)
Definition guarded (f : Feed) (r : Resource) (content : list Widget) : list Widget :=
  if present f r then content else [].

(** The body under the tab bar, by active tab. *)
Definition body (activeTab : TabType) (f : Feed) : list Widget :=
  match activeTab with
  | overview =>
      section f Overview
        (replicate 5 (Skeleton "StatCardSkeleton"))
        (replicate 5 (Content "StatCard" Overview)) ++
      section f Overview
        (replicate 3 (Skeleton "MetricCardSkeleton"))
        (replicate 3 (Content "MetricCard" Overview)) ++
      section f Charts
        [Skeleton "ChartSkeleton"; Skeleton "ChartSkeleton"]
        [Content "DeliveryTrendsChart" Charts; Content "OrderStatusChart" Charts]
  | analytics =>
      section f Charts
        (replicate 4 (Skeleton "ChartSkeleton"))
        [Content "DeliveryTrendsChart" Charts; Content "OrderStatusChart" Charts;
         Content "RouteStatusChart" Charts; Content "OutletPriorityChart" Charts] ++
      section f Charts
        [Skeleton "RouteListSkeleton"] [Content "RouteList" Charts] ++
      section f Activities
        [Skeleton "ActivityListSkeleton"] [Content "ActivityList" Activities]
  | activities =>
      if isLoading f Activities
      then [Skeleton "ActivityListSkeleton"; Skeleton "RouteListSkeleton"]
      else guarded f Activities [Content "ActivityList" Activities] ++
           guarded f Charts [Content "RouteList" Charts]
  end.

(** ** A run of the handler and the store behind the hooks *)







End App.

(* ===================================================================== *)
(** * frontend/src/components/RouteList.tsx *)
(* ===================================================================== *)

Module RouteList.
Import Js.

Definition getCompletionColor (rate : Q) : string :=
  if geb rate 80 then "text-red-600 bg-red-100"
  else if geb rate 50 then "text-yellow-600 bg-yellow-100"
  else "text-gray-600 bg-gray-100".

Definition getProgressColor (rate : Q) : string :=
  if geb rate 80 then "bg-gradient-to-r from-red-500 to-rose-500"
  else if geb rate 50 then "bg-gradient-to-r from-yellow-500 to-amber-500"
  else "bg-gradient-to-r from-gray-500 to-gray-400".

(** The colour family a class string of either function names. *)
Inductive Band := Gray | Yellow | Red.

Definition band_rank (b : Band) : Z :=
  match b with
  | Gray => 0
  | Yellow => 1
  | Red => 2
  end.

Definition badge_band (classes : string) : option Band :=
  if String.eqb classes "text-red-600 bg-red-100" then Some Red
  else if String.eqb classes "text-yellow-600 bg-yellow-100" then Some Yellow
  else if String.eqb classes "text-gray-600 bg-gray-100" then Some Gray
  else None.

Definition bar_band (classes : string) : option Band :=
  if String.eqb classes "bg-gradient-to-r from-red-500 to-rose-500" then Some Red
  else if String.eqb classes "bg-gradient-to-r from-yellow-500 to-amber-500" then Some Yellow
  else if String.eqb classes "bg-gradient-to-r from-gray-500 to-gray-400" then Some Gray
  else None.


End RouteList.

(* ===================================================================== *)
(** * frontend/src/components/Charts.tsx *)
(* ===================================================================== *)

Module Charts.
Import Js.

(** The label and tick formatters: [value.replace('_', ' ')]. *)
Definition formatter (value : string) : string := replace "_"%char " " value.

Section Label.
(** [Math.cos] and [Math.sin], which the platform approximates in its own
    way. *)
Variables (cos sin : Double.number -> Double.number).

(** [Math.PI], the double nearest to pi. *)
Definition Math_PI : Double.number :=
  Double.Finite (884279719003555 # 281474976710656).

Definition RADIAN : Double.number := Double.div Math_PI (Double.Finite 180).

Record Label := MkLabel {
  x : Double.number;
  y : Double.number;
  text : string
}.

(** [renderCustomLabel] of [OrderStatusChart]; [None] is its [null].  The
    literals 0.5 and 0.05 are the doubles nearest to them. *)
Definition renderCustomLabel (cx cy midAngle innerRadius outerRadius percent : Double.number)
  : option Label :=
  let radius :=
    Double.add innerRadius
      (Double.mul (Double.sub outerRadius innerRadius) (Double.binary64 (1 # 2))) in
  let x := Double.add cx (Double.mul radius (cos (Double.mul (Double.neg midAngle) RADIAN))) in
  let y := Double.add cy (Double.mul radius (sin (Double.mul (Double.neg midAngle) RADIAN))) in
  if Double.lt percent (Double.binary64 (1 # 20)) then None
  else Some (MkLabel x y
               (Double.toFixed 0 (Double.mul percent (Double.Finite 100)) +:+ "%")).

End Label.

End Charts.

(* ===================================================================== *)
(** * Properties *)
(* ===================================================================== *)

Import Js.

(** ** Numbers and strings *)

Lemma to_int_proper (z : Z) :
  Z.to_int z ≠ Decimal.Pos Decimal.Nil ∧ Z.to_int z ≠ Decimal.Neg Decimal.Nil.
Proof.
  destruct z as [|p|p]; simpl; split; try discriminate;
    intros E; injection E as E; by apply DecimalPos.Unsigned.to_uint_nonnil in E.
Qed.

Lemma readZ_showZ (z : Z) : readZ (showZ z) = Some z.
Proof.
  unfold readZ, showZ.
  destruct (to_int_proper z) as [Hp Hn].
  rewrite NilZero.isi by assumption. simpl. by rewrite DecimalZ.of_to.
Qed.

Lemma showZ_inj (a b : Z) : showZ a = showZ b → a = b.
Proof.
  intros E. apply (f_equal readZ) in E. rewrite !readZ_showZ in E. congruence.
Qed.

Lemma strip_prefix_app (p s : string) : strip_prefix p (p +:+ s) = Some s.
Proof.
  induction p as [|a p IH]; simpl; [done|].
  by rewrite Ascii.eqb_refl.
Qed.

Lemma append_inj_r (p s1 s2 : string) : p +:+ s1 = p +:+ s2 → s1 = s2.
Proof.
  intros E. apply (f_equal (strip_prefix p)) in E.
  rewrite !strip_prefix_app in E. congruence.
Qed.


Lemma ltb_lt x y : ltb x y = true ↔ (x < y)%Q.
Proof.
  unfold ltb. rewrite negb_true_iff.
  split.
  - intros H. apply Qnot_le_lt. intros Hle. apply Qle_bool_iff in Hle. congruence.
  - intros H. destruct (Qle_bool y x) eqn:E; [|done].
    apply Qle_bool_iff in E. lra.
Qed.

Lemma trunc_nonneg x : (0 <= x)%Q → trunc x = Qfloor x.
Proof. intros H. unfold trunc. apply Qle_bool_iff in H. by rewrite H. Qed.




(** ** Rounding to a double *)

Lemma Qfloor_unique (x : Q) (z : Z) :
  (inject_Z z <= x)%Q → (x < inject_Z (z + 1))%Q → Qfloor x = z.
Proof.
  intros Hlo Hhi.
  pose proof (Qfloor_le x) as H1. pose proof (Qlt_floor x) as H2.
  assert (Qfloor x < z + 1).
  { rewrite Zlt_Qlt. eapply Qle_lt_trans; eassumption. }
  assert (z < Qfloor x + 1).
  { rewrite Zlt_Qlt. eapply Qle_lt_trans; eassumption. }
  lia.
Qed.

Lemma round_half_even_near (x : Q) :
  (inject_Z (Double.round_half_even x) - (1 # 2) <= x)%Q ∧
  (x <= inject_Z (Double.round_half_even x) + (1 # 2))%Q.
Proof.
  unfold Double.round_half_even.
  pose proof (Qfloor_le x) as Hlo. pose proof (Qlt_floor x) as Hhi.
  rewrite inject_Z_plus in Hhi. change (inject_Z 1) with 1%Q in Hhi.
  destruct (Qcompare_spec (x - inject_Z (Qfloor x)) (1 # 2)) as [E|E|E].
  - destruct (Z.even (Qfloor x)); [|rewrite inject_Z_plus; change (inject_Z 1) with 1%Q];
      split; lra.
  - split; lra.
  - rewrite inject_Z_plus. change (inject_Z 1) with 1%Q. split; lra.
Qed.

Lemma round_half_even_int (x : Q) (z : Z) :
  (x == inject_Z z)%Q → Double.round_half_even x = z.
Proof.
  intros E. unfold Double.round_half_even.
  assert (Qfloor x = z) as ->.
  { rewrite (Qfloor_comp _ _ E). apply Qfloor_Z. }
  destruct (Qcompare_spec (x - inject_Z z) (1 # 2)) as [H|H|H]; [lra | done | lra].
Qed.

Lemma pow2_pos (e : Z) : (0 < 2 ^ e)%Q.
Proof. by apply Qpower_0_lt. Qed.

Lemma pow2_plus (a b : Z) : (2 ^ (a + b) == 2 ^ a * 2 ^ b)%Q.
Proof. by apply Qpower_plus. Qed.

Lemma pow2_succ (a : Z) : (2 ^ (a + 1) == 2 * 2 ^ a)%Q.
Proof. rewrite pow2_plus. change (2 ^ 1)%Q with 2%Q. ring. Qed.

Lemma pow2_le (a b : Z) : a ≤ b → (2 ^ a <= 2 ^ b)%Q.
Proof. intros H. by apply Qpower_le_compat_l. Qed.

Lemma pow2_lt (a b : Z) : a < b → (2 ^ a < 2 ^ b)%Q.
Proof. intros H. by apply Qpower_lt_compat_l. Qed.

Lemma pow2_inject (n : Z) : 0 ≤ n → (2 ^ n == inject_Z (2 ^ n))%Q.
Proof. intros H. symmetry. by apply (Zpower_Qpower 2). Qed.

Lemma ilog2_spec (a : Q) :
  (0 < a)%Q → (2 ^ Double.ilog2 a <= a)%Q ∧ (a < 2 ^ (Double.ilog2 a + 1))%Q.
Proof.
  intros Ha. destruct a as [n d].
  assert (0 < n) as Hn by (unfold Qlt in Ha; simpl in Ha; lia).
  unfold Double.ilog2. cbn [Qnum Qden].
  set (ln := Z.log2 n). set (ld := Z.log2 (Z.pos d)).
  destruct (Z.log2_spec n Hn) as [Hn1 Hn2]. fold ln in Hn1, Hn2.
  destruct (Z.log2_spec (Z.pos d)) as [Hd1 Hd2]; [lia|]. fold ld in Hd1, Hd2.
  assert (0 ≤ ln) as Hln by apply Z.log2_nonneg.
  assert (0 ≤ ld) as Hld by apply Z.log2_nonneg.
  assert (n # d == inject_Z n / inject_Z (Z.pos d))%Q as Hq by apply Qmake_Qdiv.
  assert (0 < inject_Z (Z.pos d))%Q as Hdpos by (rewrite <- (Zlt_Qlt 0); lia).
  assert (inject_Z (2 ^ ln) <= inject_Z n)%Q as Qn1 by (by rewrite <- Zle_Qle).
  assert (inject_Z n < inject_Z (2 ^ Z.succ ln))%Q as Qn2 by (by rewrite <- Zlt_Qlt).
  assert (inject_Z (2 ^ ld) <= inject_Z (Z.pos d))%Q as Qd1 by (by rewrite <- Zle_Qle).
  assert (inject_Z (Z.pos d) < inject_Z (2 ^ Z.succ ld))%Q as Qd2 by (by rewrite <- Zlt_Qlt).
  rewrite <- !pow2_inject in Qn1, Qn2, Qd1, Qd2 by lia.
  unfold Z.succ in Qn2, Qd2. rewrite pow2_succ in Qn2, Qd2.
  pose proof (pow2_pos ln) as Pn. pose proof (pow2_pos ld) as Pd.
  assert (2 ^ ln == 2 ^ (ln - ld) * 2 ^ ld)%Q as Hsplit.
  { rewrite <- pow2_plus. by replace (ln - ld + ld) with ln by lia. }
  pose proof (pow2_pos (ln - ld)) as Pp.
  (* a * d = n *)
  assert ((n # d) * inject_Z (Z.pos d) == inject_Z n)%Q as Hmul.
  { rewrite Hq. field. lra. }
  destruct (Qle_bool (2 ^ (ln - ld)) (n # d)) eqn:E.
  - apply Qle_bool_iff in E. split; [done|].
    rewrite pow2_succ.
    apply (Qmult_lt_r _ _ (inject_Z (Z.pos d))); [done|]. rewrite Hmul.
    apply (Qlt_le_trans _ (2 * 2 ^ ln)); [done|]. rewrite Hsplit.
    rewrite <- !Qmult_assoc. apply Qmult_le_l; [lra|]. apply Qmult_le_l; [done|]. lra.
  - assert (n # d < 2 ^ (ln - ld))%Q as E'.
    { apply Qnot_le_lt. intros H. apply Qle_bool_iff in H. congruence. }
    replace (ln - ld - 1 + 1) with (ln - ld) by lia. split; [|done].
    assert (2 ^ (ln - ld) == 2 * 2 ^ (ln - ld - 1))%Q as Hhalf.
    { rewrite <- pow2_succ. by replace (ln - ld - 1 + 1) with (ln - ld) by lia. }
    pose proof (pow2_pos (ln - ld - 1)) as Pq.
    apply (Qmult_le_r _ _ (inject_Z (Z.pos d))); [done|]. rewrite Hmul.
    apply (Qle_trans _ (2 ^ ln)); [|done]. rewrite Hsplit, Hhalf.
    assert (2 * 2 ^ (ln - ld - 1) * 2 ^ ld == 2 ^ (ln - ld - 1) * (2 * 2 ^ ld))%Q as -> by ring.
    apply Qmult_le_l; [done|]. lra.
Qed.

Lemma ilog2_unique (a : Q) (p : Z) :
  (2 ^ p <= a)%Q → (a < 2 ^ (p + 1))%Q → Double.ilog2 a = p.
Proof.
  intros Hlo Hhi.
  assert (0 < a)%Q as Ha by (pose proof (pow2_pos p); lra).
  destruct (ilog2_spec a Ha) as [Slo Shi].
  destruct (Z.lt_trichotomy (Double.ilog2 a) p) as [H|[H|H]]; [|done|].
  - pose proof (pow2_le (Double.ilog2 a + 1) p ltac:(lia)). lra.
  - pose proof (pow2_le (p + 1) (Double.ilog2 a) ltac:(lia)). lra.
Qed.

Lemma Qle_bool_false (x y : Q) : Qle_bool x y = false ↔ (y < x)%Q.
Proof.
  split.
  - intros H. apply Qnot_le_lt. intros Hle. apply Qle_bool_iff in Hle. congruence.
  - intros H. destruct (Qle_bool x y) eqn:E; [|done]. apply Qle_bool_iff in E. lra.
Qed.

Lemma scaled_mantissa (q : Q) (p : Z) :
  (2 ^ p <= q)%Q → (q < 2 ^ (p + 1))%Q →
  (inject_Z (2 ^ 52) <= q / 2 ^ (p - 52))%Q ∧ (q / 2 ^ (p - 52) < inject_Z (2 ^ 53))%Q.
Proof.
  intros Hlo Hhi. pose proof (pow2_pos (p - 52)) as Pe.
  rewrite <- !pow2_inject by lia.
  assert (2 ^ p == 2 ^ 52 * 2 ^ (p - 52))%Q as E1.
  { rewrite <- pow2_plus. by replace (52 + (p - 52)) with p by lia. }
  assert (2 ^ (p + 1) == 2 ^ 53 * 2 ^ (p - 52))%Q as E2.
  { rewrite <- pow2_plus. by replace (53 + (p - 52)) with (p + 1) by lia. }
  split.
  - apply Qle_shift_div_l; [done|]. by rewrite <- E1.
  - apply Qlt_shift_div_r; [done|]. by rewrite <- E2.
Qed.

Lemma binary64_normal (q : Q) (p : Z) :
  (2 ^ p <= q)%Q → (q < 2 ^ (p + 1))%Q → -1022 ≤ p ≤ 1022 →
  Double.binary64 q
  = Double.Finite (Qred (inject_Z (Double.round_half_even (q / 2 ^ (p - 52))) * 2 ^ (p - 52))).
Proof.
  intros Hlo Hhi Hp.
  pose proof (pow2_pos p) as Pp. pose proof (pow2_pos (p - 52)) as Pe.
  assert (0 < q)%Q as Hq by lra.
  unfold Double.binary64.
  assert (Qeq_bool q 0 = false) as ->.
  { destruct (Qeq_bool q 0) eqn:E; [|done]. apply Qeq_bool_iff in E. lra. }
  assert (Qabs q = q) as ->.
  { destruct q as [[|n|n] d]; try done; unfold Qlt in Hq; simpl in Hq; lia. }
  rewrite (ilog2_unique q p Hlo Hhi).
  rewrite Z.max_l by lia.
  assert (ltb q 0 = false) as ->.
  { unfold ltb. apply negb_false_iff, Qle_bool_iff. lra. }
  set (m := Double.round_half_even (q / 2 ^ (p - 52))).
  destruct (scaled_mantissa q p Hlo Hhi) as [_ Hm].
  destruct (round_half_even_near (q / 2 ^ (p - 52))) as [Hn _]. fold m in Hn.
  assert (m ≤ 2 ^ 53) as Hle.
  { apply Z.lt_succ_r. unfold Z.succ. rewrite Zlt_Qlt, inject_Z_plus.
    change (inject_Z 1) with 1%Q. lra. }
  assert (Qle_bool (2 ^ 1024) (inject_Z m * 2 ^ (p - 52)) = false) as ->; [|done].
  apply Qle_bool_false.
  apply (Qle_lt_trans _ (2 ^ (p + 1))); [|by apply pow2_lt; lia].
  assert (2 ^ (p + 1) == inject_Z (2 ^ 53) * 2 ^ (p - 52))%Q as ->.
  { rewrite <- pow2_inject, <- pow2_plus by lia. by replace (53 + (p - 52)) with (p + 1) by lia. }
  apply Qmult_le_r; [done|]. by rewrite <- Zle_Qle.
Qed.

(** The double nearest to a number of the normal range is within half a
    unit in the last place of it. *)
Lemma binary64_near (q : Q) (p : Z) :
  (2 ^ p <= q)%Q → (q < 2 ^ (p + 1))%Q → -1022 ≤ p ≤ 1022 →
  ∃ r, Double.binary64 q = Double.Finite r ∧
       (q - 2 ^ (p - 53) <= r)%Q ∧ (r <= q + 2 ^ (p - 53))%Q.
Proof.
  intros Hlo Hhi Hp. eexists. split; [by apply binary64_normal|].
  rewrite Qred_correct.
  pose proof (pow2_pos (p - 52)) as Pe.
  destruct (round_half_even_near (q / 2 ^ (p - 52))) as [Hn1 Hn2].
  set (m := Double.round_half_even (q / 2 ^ (p - 52))) in *.
  assert (2 ^ (p - 52) == 2 * 2 ^ (p - 53))%Q as Eh.
  { rewrite <- pow2_succ. by replace (p - 53 + 1) with (p - 52) by lia. }
  assert (q == q / 2 ^ (p - 52) * 2 ^ (p - 52))%Q as Eq by (field; lra).
  set (y := (q / 2 ^ (p - 52))%Q) in *.
  set (u := (2 ^ (p - 52))%Q) in *. set (h := (2 ^ (p - 53))%Q) in *.
  rewrite Eq. split; nra.
Qed.

Lemma binary64_exact (q : Q) (p M : Z) :
  (2 ^ p <= q)%Q → (q < 2 ^ (p + 1))%Q → -1022 ≤ p ≤ 1022 →
  (q == inject_Z M * 2 ^ (p - 52))%Q →
  Double.binary64 q = Double.Finite (Qred q).
Proof.
  intros Hlo Hhi Hp HM. rewrite (binary64_normal q p Hlo Hhi Hp).
  pose proof (pow2_pos (p - 52)) as Pe.
  f_equal. apply Qred_complete.
  rewrite (round_half_even_int _ M); [by symmetry|].
  rewrite HM. field. lra.
Qed.

Lemma is_double_grid (q : Q) (p : Z) :
  Double.is_double q = true →
  (2 ^ p <= q)%Q → (q < 2 ^ (p + 1))%Q → -1022 ≤ p ≤ 1022 →
  ∃ M : Z, (q == inject_Z M * 2 ^ (p - 52))%Q.
Proof.
  intros Hd Hlo Hhi Hp. unfold Double.is_double in Hd.
  rewrite (binary64_normal q p Hlo Hhi Hp) in Hd.
  apply Qeq_bool_iff in Hd. rewrite Qred_correct in Hd. eexists. by symmetry.
Qed.

Lemma Z_bounds_Q (n lo hi : Z) :
  lo ≤ n < hi → (inject_Z lo <= inject_Z n)%Q ∧ (inject_Z n < inject_Z hi)%Q.
Proof. intros [H1 H2]. split; [by rewrite <- Zle_Qle | by rewrite <- Zlt_Qlt]. Qed.

(** Every integer below 2^53 is a double. *)
Lemma is_double_int (n : Z) : 0 < n < 2 ^ 53 → Double.is_double (inject_Z n) = true.
Proof.
  intros Hn. set (p := Z.log2 n).
  destruct (Z.log2_spec n) as [H1 H2]; [lia|]. fold p in H1, H2.
  assert (0 ≤ p) as Hp0 by apply Z.log2_nonneg.
  assert (p < 53) as Hp1.
  { apply (Z.pow_lt_mono_r_iff 2); lia. }
  assert (2 ^ p <= inject_Z n)%Q as Hlo.
  { rewrite pow2_inject by lia. by rewrite <- Zle_Qle. }
  assert (inject_Z n < 2 ^ (p + 1))%Q as Hhi.
  { rewrite pow2_inject by lia. by rewrite <- Zlt_Qlt. }
  unfold Double.is_double.
  rewrite (binary64_exact (inject_Z n) p (n * 2 ^ (52 - p)) Hlo Hhi); [|lia|].
  - apply Qeq_bool_iff, Qred_correct.
  - rewrite inject_Z_mult, <- pow2_inject by lia.
    rewrite <- Qmult_assoc, <- pow2_plus.
    replace (52 - p + (p - 52)) with 0 by lia. change (2 ^ 0)%Q with 1%Q. ring.
Qed.

Lemma pow2_cancel (a b : Z) : a + b = 0 → (2 ^ a * 2 ^ b == 1)%Q.
Proof. intros H. rewrite <- pow2_plus, H. reflexivity. Qed.

Lemma ilog2_ge (a : Q) (p : Z) : (2 ^ p <= a)%Q → p ≤ Double.ilog2 a.
Proof.
  intros H. assert (0 < a)%Q as Ha by (pose proof (pow2_pos p); lra).
  destruct (ilog2_spec a Ha) as [_ Shi].
  destruct (Z.le_gt_cases p (Double.ilog2 a)) as [|Hlt]; [done|].
  pose proof (pow2_le (Double.ilog2 a + 1) p ltac:(lia)). lra.
Qed.

Lemma ilog2_lt (a : Q) (p : Z) : (0 < a)%Q → (a < 2 ^ p)%Q → Double.ilog2 a < p.
Proof.
  intros Ha H. destruct (ilog2_spec a Ha) as [Slo _].
  destruct (Z.lt_ge_cases (Double.ilog2 a) p) as [|Hge]; [done|].
  pose proof (pow2_le p (Double.ilog2 a) ltac:(lia)). lra.
Qed.

(** Dividing a double below 2^53 by 60 and rounding the quotient to a
    double does not reach the next integer. *)
Lemma hours_exact (m : Q) :
  Double.is_double m = true → (60 <= m)%Q → (m < inject_Z (2 ^ 53))%Q →
  Double.floor (Double.div (Double.Finite m) (Double.Finite 60)) = Double.Int (Qfloor (m / 60)).
Proof.
  intros Hd Hlo Hhi.
  assert (0 < m)%Q as Hm by lra.
  cbn [Double.div]. change (Qeq_bool 60 0) with false. cbn iota.
  set (q := (m / 60)%Q).
  assert (q * 60 == m)%Q as Hq by (unfold q; field).
  assert (0 < q)%Q as Hq0 by lra.
  destruct (ilog2_spec m Hm) as [Mlo Mhi]. set (pm := Double.ilog2 m) in *.
  destruct (ilog2_spec q Hq0) as [Qlo Qhi]. set (pq := Double.ilog2 q) in *.
  assert (pm ≤ 52) as Hpm.
  { apply Z.lt_succ_r. apply ilog2_lt; [done|]. by rewrite pow2_inject. }
  assert (0 ≤ pq) as Hpq0.
  { apply ilog2_ge. change (2 ^ 0)%Q with 1%Q. lra. }
  assert (pq ≤ pm - 5) as Hpq.
  { apply Z.lt_succ_r. apply ilog2_lt; [done|].
    assert (2 ^ (pm + 1) == 32 * 2 ^ (Z.succ (pm - 5)))%Q as E.
    { change 32%Q with (2 ^ 5)%Q. rewrite <- pow2_plus.
      by replace (5 + Z.succ (pm - 5)) with (pm + 1) by lia. }
    pose proof (pow2_pos (Z.succ (pm - 5))). lra. }
  destruct (is_double_grid m pm Hd Mlo Mhi) as [Mm Hgrid]; [lia|].
  rewrite (binary64_normal q pq Qlo Qhi) by lia.
  cbn [Double.floor]. f_equal. unfold Math_floor.
  rewrite (Qfloor_comp _ _ (Qred_correct _)).
  set (u := (2 ^ (pq - 52))%Q). pose proof (pow2_pos (pq - 52)) as Pu. fold u in Pu.
  destruct (round_half_even_near (q / u)) as [Hn1 Hn2].
  set (mq := Double.round_half_even (q / u)) in *.
  set (k := Qfloor q).
  pose proof (Qfloor_le q) as Kl. pose proof (Qlt_floor q) as Kh. fold k in Kl, Kh.
  set (A := 2 ^ (52 - pm)). set (B := 2 ^ (pm - pq)).
  assert (0 < A) as HA by (apply Z.pow_pos_nonneg; lia).
  assert (32 ≤ B) as HB.
  { change 32 with (2 ^ 5). apply Z.pow_le_mono_r; lia. }
  assert (u * inject_Z (A * B) == 1)%Q as HuN.
  { unfold u, A, B. rewrite <- Z.pow_add_r by lia.
    rewrite <- pow2_inject by lia. apply pow2_cancel. lia. }
  assert (m * inject_Z A == inject_Z Mm)%Q as HmA.
  { rewrite Hgrid. unfold A. rewrite <- pow2_inject by lia.
    rewrite <- Qmult_assoc, pow2_cancel by lia. ring. }
  assert (q / u == q * inject_Z (A * B))%Q as Hy.
  { rewrite <- (Qmult_1_r (q / u)), <- HuN. field. lra. }
  rewrite Hy in Hn1, Hn2.
  rewrite inject_Z_mult in Hn1, Hn2, HuN.
  rewrite inject_Z_plus in Kh. change (inject_Z 1) with 1%Q in Kh.
  assert (0 < inject_Z A)%Q as QA by (by rewrite <- (Zlt_Qlt 0)).
  assert (32 <= inject_Z B)%Q as QB by (by rewrite <- (Zle_Qle 32)).
  set (P := (inject_Z A * inject_Z B)%Q) in *.
  assert (0 < P)%Q as HP by (unfold P; apply Qmult_lt_0_compat; lra).
  (* the numerator of the dividend is below 60 (k + 1) on its grid *)
  assert (Mm + 1 ≤ 60 * (k + 1) * A) as Hgap.
  { apply Z.lt_succ_r. unfold Z.succ. apply Z.add_lt_mono_r.
    rewrite Zlt_Qlt, !inject_Z_mult, inject_Z_plus.
    change (inject_Z 60) with 60%Q. change (inject_Z 1) with 1%Q. rewrite <- HmA, <- Hq.
    assert (q * inject_Z A < (inject_Z k + 1) * inject_Z A)%Q by (apply Qmult_lt_r; lra).
    lra. }
  assert (60 * (q * P) + inject_Z B <= 60 * ((inject_Z k + 1) * P))%Q as Hgap'.
  { rewrite Zle_Qle, !inject_Z_mult, !inject_Z_plus in Hgap.
    change (inject_Z 60) with 60%Q in Hgap; change (inject_Z 1) with 1%Q in Hgap.
    assert ((inject_Z Mm + 1) * inject_Z B
            <= 60 * (inject_Z k + 1) * inject_Z A * inject_Z B)%Q as H
      by (apply Qmult_le_r; lra).
    assert (60 * (q * P) == inject_Z Mm * inject_Z B)%Q as E.
    { rewrite <- HmA, <- Hq. unfold P. ring. }
    unfold P in *. lra. }
  assert (inject_Z k * P <= q * P)%Q as Hfloor by (apply Qmult_le_r; lra).
  assert (k * (A * B) ≤ mq) as Hlow.
  { apply Z.lt_succ_r. unfold Z.succ. rewrite Zlt_Qlt, inject_Z_plus, !inject_Z_mult.
    change (inject_Z 1) with 1%Q. fold P. lra. }
  assert (mq + 1 ≤ (k + 1) * (A * B)) as Hup.
  { apply Z.lt_succ_r. unfold Z.succ. apply Z.add_lt_mono_r.
    rewrite Zlt_Qlt, !inject_Z_mult, inject_Z_plus. change (inject_Z 1) with 1%Q.
    fold P. lra. }
  rewrite Zle_Qle, !inject_Z_mult, ?inject_Z_plus in Hlow, Hup.
  change (inject_Z 1) with 1%Q in Hup. fold P in Hlow, Hup.
  assert (inject_Z mq * u * P == inject_Z mq)%Q as Hback.
  { rewrite <- Qmult_assoc, HuN. ring. }
  apply Qfloor_unique.
  - apply (Qmult_le_r _ _ P); [done|]. lra.
  - rewrite inject_Z_plus. change (inject_Z 1) with 1%Q.
    apply (Qmult_lt_r _ _ P); [done|]. lra.
Qed.

Lemma toString_Int (z : Z) :
  Z.abs z < 10 ^ 21 → Double.toString (Double.Int z) = showZ z.
Proof.
  intros H. cbn [Double.toString]. apply Z.ltb_lt in H. by rewrite H.
Qed.

Lemma toFixed_Finite (f : nat) (a : Q) :
  (Qabs a < inject_Z (10 ^ 21))%Q → Double.toFixed f (Double.Finite a) = toFixed f a.
Proof.
  intros H. cbn [Double.toFixed].
  by rewrite (proj2 (Qle_bool_false _ _) H).
Qed.



(** ** The fetch client *)

Section Fetcher.
Context {T : Type}.
Implicit Types (net : UseApi.Network T) (r : UseApi.Response T).

Lemma classify_http (s : Z) :
  UseApi.classify (Error ("API error: " +:+ showZ s)) = Some (UseApi.HTTPError s).
Proof.
  unfold UseApi.classify. rewrite strip_prefix_app, readZ_showZ. reflexivity.
Qed.

Lemma ok_2xx r : UseApi.ok r = true ↔ 200 ≤ UseApi.status r ≤ 299.
Proof. unfold UseApi.ok. rewrite andb_true_iff, !Z.leb_le. done. Qed.

(** The outcome of [fetcher], by what the network did. *)
Lemma fetcher_outcome net url now :
  outcome (UseApi.fetcher net url now) =
    match net url now with
    | UseApi.Silent => None
    | UseApi.Failed t m => Some (Z.max now t, Rejected (TypeError m))
    | UseApi.Responded t r =>
        if UseApi.ok r
        then Some (Z.max (Z.max now t) (UseApi.body_at r),
                   match UseApi.body r with
                   | UseApi.Json v => Fulfilled v
                   | UseApi.Malformed m => Rejected (SyntaxError m)
                   | UseApi.Truncated m => Rejected (TypeError m)
                   end)
        else Some (Z.max now t,
                   Rejected (Error ("API error: " +:+ showZ (UseApi.status r))))
    end.
Proof.
  unfold UseApi.fetcher, UseApi.fetch, bind, await, throw, UseApi.json.
  destruct (net url now) as [|t m|t r]; simpl; try reflexivity.
  destruct (UseApi.ok r); reflexivity.
Qed.

End Fetcher.

(** C4.  Whatever the network does with a request, [fetcher] fails only by
    rejecting the promise it returns.  A response outside 200-299 rejects
    with the Error whose message carries the status code (kind HTTPError of
    that status); a 2xx response whose body is not JSON rejects with the
    parser's SyntaxError (kind DecodeError); a network failure rejects with
    the TypeError of [fetch] (kind NetworkError).  Every rejection is of one
    of these three kinds, and the cache commits every rejection the same
    way, whatever its kind. *)
Theorem fetcher_rejections {T} (net : UseApi.Network T) (url : string) (now : Instant) :
  (∀ t r, net url now = UseApi.Responded t r →
     ¬ (200 ≤ UseApi.status r ≤ 299) →
     ∃ e, outcome (UseApi.fetcher net url now) = Some (Z.max now t, Rejected e) ∧
          e = Error ("API error: " +:+ showZ (UseApi.status r)) ∧
          UseApi.classify e = Some (UseApi.HTTPError (UseApi.status r))) ∧
  (∀ t r m, net url now = UseApi.Responded t r →
     200 ≤ UseApi.status r ≤ 299 →
     UseApi.body r = UseApi.Malformed m →
     ∃ t' e, outcome (UseApi.fetcher net url now) = Some (t', Rejected e) ∧
             UseApi.classify e = Some UseApi.DecodeError) ∧
  (∀ t m, net url now = UseApi.Failed t m →
     ∃ t' e, outcome (UseApi.fetcher net url now) = Some (t', Rejected e) ∧
             UseApi.classify e = Some UseApi.NetworkError) ∧
  (∀ t e, outcome (UseApi.fetcher net url now) = Some (t, Rejected e) →
     UseApi.classify e = Some UseApi.NetworkError ∨
     UseApi.classify e = Some UseApi.DecodeError ∨
     ∃ r u, net url now = UseApi.Responded u r ∧
            ¬ (200 ≤ UseApi.status r ≤ 299) ∧
            UseApi.classify e = Some (UseApi.HTTPError (UseApi.status r))) ∧
  (∀ e now', Sync.commit (T:=T) (Rejected e) now'
             = Sync.MkPatch None (Some (Some e)) None (Some false)).
Proof.
  rewrite fetcher_outcome.
  split; [|split; [|split; [|split]]].
  - intros t r -> Hno.
    destruct (UseApi.ok r) eqn:Hok; [apply ok_2xx in Hok; contradiction|].
    eexists. split; [reflexivity|]. split; [reflexivity|]. apply classify_http.
  - intros t r m -> Hok Hbody. apply ok_2xx in Hok. rewrite Hok, Hbody.
    eauto.
  - intros t m ->. eauto.
  - intros t e. destruct (net url now) as [|u m|u r]; [done| |].
    + intros [= _ <-]. by left.
    + destruct (UseApi.ok r) eqn:Hok.
      * destruct (UseApi.body r); intros [= _ <-]; auto.
      * intros [= _ <-]. right. right. exists r, u.
        split; [done|]. split; [|apply classify_http].
        intros H2xx. apply ok_2xx in H2xx. congruence.
  - reflexivity.
Qed.

(** A 503 answer is surfaced as the error "API error: 503". *)
Lemma fetcher_rejections_witness :
  let net : UseApi.Network nat :=
    fun _ now => UseApi.Responded (now + 40) (UseApi.MkResponse 503 (UseApi.Malformed "<html>") (now + 41)) in
  ∃ e, outcome (UseApi.fetcher net "/api/v1/dashboard/overview" 0) = Some (Z.max 0 40, Rejected e) ∧
       e = Error ("API error: " +:+ showZ 503) ∧
       UseApi.classify e = Some (UseApi.HTTPError 503).
Proof.
  intros net.
  apply (proj1 (fetcher_rejections net "/api/v1/dashboard/overview" 0) 40
           (UseApi.MkResponse 503 (UseApi.Malformed "<html>") 41)).
  - reflexivity.
  - simpl. lia.
Defined.

(** ** Resource keys and hook options *)

(** C8.  Each resource hook passes its own revalidation interval to
    [useSWR]: 30 s for the overview, 60 s for the charts, 15 s for the
    recent activities (whatever the limit); each enables revalidation on
    window focus. *)
Theorem hook_intervals :
  UseApi.refreshInterval (UseApi.options UseApi.useDashboardOverview) = 30 * 1000 ∧
  UseApi.refreshInterval (UseApi.options UseApi.useChartsData) = 60 * 1000 ∧
  (∀ limit, UseApi.refreshInterval (UseApi.options (UseApi.useRecentActivities limit)) = 15 * 1000) ∧
  UseApi.revalidateOnFocus (UseApi.options UseApi.useDashboardOverview) = true ∧
  UseApi.revalidateOnFocus (UseApi.options UseApi.useChartsData) = true ∧
  (∀ limit, UseApi.revalidateOnFocus (UseApi.options (UseApi.useRecentActivities limit)) = true).
Proof. repeat split. Qed.

(** C9, as stated, fails: [refreshAllData] requests the recent activities
    at the bare endpoint, a URL without a [limit] parameter.  A network
    that never answers that URL keeps [refreshAllData] pending; one that
    never answers the URL with [?limit=20] does not. *)
Lemma refreshAllData_skips_limit :
  UseApi.refreshAllData_urls
    = ["/api/v1/dashboard/overview"; "/api/v1/dashboard/charts";
       "/api/v1/dashboard/recent-activities"] ∧
  UseApi.limit_of "/api/v1/dashboard/recent-activities" = None ∧
  (let net : UseApi.Network nat :=
     fun url now =>
       if String.eqb url "/api/v1/dashboard/recent-activities"
       then UseApi.Silent
       else UseApi.Responded now (UseApi.MkResponse 200 (UseApi.Json 0%nat) now) in
   outcome (UseApi.refreshAllData net 0) = None) ∧
  (let net : UseApi.Network nat :=
     fun url now =>
       if String.eqb url "/api/v1/dashboard/recent-activities?limit=20"
       then UseApi.Silent
       else UseApi.Responded now (UseApi.MkResponse 200 (UseApi.Json 0%nat) now) in
   outcome (UseApi.refreshAllData net 0) = Some (0, Fulfilled tt)).
Proof. repeat split. Qed.

Lemma activities_key limit :
  UseApi.key (UseApi.useRecentActivities limit)
  = "/api/v1/dashboard/recent-activities?limit=" +:+ showZ (default 20 limit).
Proof. reflexivity. Qed.

Lemma refreshAllData_reads_only {T} (net net' : UseApi.Network T) now :
  (∀ url, url ∈ UseApi.refreshAllData_urls → net url now = net' url now) →
  UseApi.refreshAllData net now = UseApi.refreshAllData net' now.
Proof.
  intros H. unfold UseApi.refreshAllData, UseApi.fetch. cbn [map UseApi.endpoints].
  rewrite !H; [done|..]; unfold UseApi.refreshAllData_urls; cbn; set_solver.
Qed.

(** C9, amended.  Every request made through [useRecentActivities] carries
    the limit as the query parameter [?limit=N], N a positive integer
    printed in decimal; the limit is 20 when the caller passes none; the
    limit is part of the key, so distinct limits give distinct keys.
    [refreshAllData] asks the network for the three bare endpoint URLs and
    nothing else: its request for the recent activities has no [limit]. *)
Theorem activities_limit_in_key :
  (∀ limit : Z, 0 < limit → safe_integer limit →
     UseApi.key (UseApi.useRecentActivities (Some limit))
       = "/api/v1/dashboard/recent-activities?limit=" +:+ showZ limit ∧
     UseApi.limit_of (UseApi.key (UseApi.useRecentActivities (Some limit))) = Some limit) ∧
  UseApi.key (UseApi.useRecentActivities None)
    = "/api/v1/dashboard/recent-activities?limit=20" ∧
  (∀ a b : Z, 0 < a → safe_integer a → 0 < b → safe_integer b → a ≠ b →
     UseApi.key (UseApi.useRecentActivities (Some a))
       ≠ UseApi.key (UseApi.useRecentActivities (Some b))) ∧
  (∀ T (net net' : UseApi.Network T) now,
     (∀ url, url ∈ ["/api/v1/dashboard/overview"; "/api/v1/dashboard/charts";
                    "/api/v1/dashboard/recent-activities"] →
             net url now = net' url now) →
     UseApi.refreshAllData net now = UseApi.refreshAllData net' now).
Proof.
  split; [|split; [reflexivity|split]].
  - intros limit _ _. split; [reflexivity|].
    rewrite activities_key. unfold UseApi.limit_of.
    change (UseApi.API_BASE +:+ "/recent-activities?limit=")
      with "/api/v1/dashboard/recent-activities?limit=".
    rewrite strip_prefix_app. apply readZ_showZ.
  - intros a b _ _ _ _ Hne E. rewrite !activities_key in E.
    apply append_inj_r, showZ_inj in E. done.
  - intros T net net' now H. by apply refreshAllData_reads_only.
Qed.

(** The key of a page of 50. *)
Lemma activities_limit_in_key_witness :
  UseApi.key (UseApi.useRecentActivities (Some 50))
    = "/api/v1/dashboard/recent-activities?limit=" +:+ showZ 50 ∧
  UseApi.limit_of (UseApi.key (UseApi.useRecentActivities (Some 50))) = Some 50.
Proof.
  apply (proj1 activities_limit_in_key 50); [lia | unfold safe_integer; lia].
Defined.

(** ** The manual refresh *)

Section Refresh.
Context {T : Type}.
Implicit Types (net : UseApi.Network T).

Lemma first_rejection_None {A} (ps : list (promise A)) :
  (∀ p, p ∈ ps → ∀ t e, p ≠ Some (t, Rejected e)) → first_rejection ps = None.
Proof.
  induction ps as [|p ps IH]; intros H; simpl; [done|].
  rewrite IH by (intros q Hq; apply H; by right).
  destruct p as [[t [v|e]]|]; try done.
  exfalso. eapply (H _ (list_elem_of_here _ _)); reflexivity.
Qed.

Lemma catch_null_not_rejected {A} (p : promise A) t e :
  catch_null p ≠ Some (t, Rejected e).
Proof. destruct p as [[u [v|e']]|]; simpl; congruence. Qed.

Lemma refreshAllData_outcome net now :
  outcome (UseApi.refreshAllData net now) =
    match all_fulfilled now
            (map (fun endpoint =>
                    catch_null (UseApi.fetch net (UseApi.API_BASE +:+ endpoint) now))
                 UseApi.endpoints) with
    | Some (t, _) => Some (Z.max now t, Fulfilled tt)
    | None => None
    end.
Proof.
  unfold UseApi.refreshAllData, bind, await, ret, Promise_all.
  rewrite first_rejection_None.
  - destruct (all_fulfilled _ _) as [[t vs]|]; reflexivity.
  - intros p Hp t e. apply list_elem_of_fmap in Hp as (x & -> & _).
    apply catch_null_not_rejected.
Qed.

Lemma handleRefresh_run {D} (rO rC rA : Instant → promise D) now :
  App.handleRefresh rO rC rA now =
    match Promise_all now [rO now; rC now; rA now] with
    | Some (t, Fulfilled _) =>
        MkRun [(now, true); (Z.max now t + 500, false)] (Some (Z.max now t, Fulfilled tt))
    | Some (t, Rejected e) => MkRun [(now, true)] (Some (Z.max now t, Rejected e))
    | None => MkRun [(now, true)] None
    end.
Proof.
  unfold App.handleRefresh, App.setIsRefreshing, bind, await, set_state, setTimeout.
  simpl. destruct (Promise_all _ _) as [[t [v|e]]|]; reflexivity.
Qed.

End Refresh.

Lemma first_rejection_earliest {A} (ps : list (promise A)) t e :
  first_rejection ps = Some (t, e) →
  Some (t, Rejected e) ∈ ps ∧
  ∀ u e', Some (u, Rejected e') ∈ ps → t ≤ u.
Proof.
  revert t e. induction ps as [|p ps IH]; intros t e; simpl; [discriminate|].
  destruct p as [[u [v|e0]]|].
  - intros H. destruct (IH _ _ H) as [Hin Hmin]. split; [by right|].
    intros u' e' [[=]|Hel]%elem_of_cons. by eapply Hmin.
  - destruct (first_rejection ps) as [[t' e']|] eqn:E.
    + destruct (IH _ _ eq_refl) as [Hin Hmin].
      destruct (Z.ltb_spec t' u); intros [= <- <-].
      * split; [by right|]. intros u' e'' [[= -> ->]|Hel]%elem_of_cons; [lia|].
        by eapply Hmin.
      * split; [by left|]. intros u' e'' [[= -> ->]|Hel]%elem_of_cons; [lia|].
        specialize (Hmin _ _ Hel). lia.
    + intros [= <- <-]. split; [by left|].
      intros u' e'' [[= -> ->]|Hel]%elem_of_cons; [lia|].
      exfalso. clear IH. induction ps as [|q ps IHps]; [by apply elem_of_nil in Hel|].
      simpl in E. apply elem_of_cons in Hel as [<-|Hel].
      * by destruct (first_rejection ps) as [[? ?]|]; [destruct (_ <? _)|].
      * apply IHps; [|done]. destruct q as [[? [?|?]]|]; try done.
        by destruct (first_rejection ps) as [[? ?]|]; [destruct (_ <? _)|].
  - intros H. destruct (IH _ _ H) as [Hin Hmin]. split; [by right|].
    intros u' e' [[=]|Hel]%elem_of_cons. by eapply Hmin.
Qed.

Lemma first_rejection_Some {A} (ps : list (promise A)) u e :
  Some (u, Rejected e) ∈ ps → is_Some (first_rejection ps).
Proof.
  induction ps as [|q ps IH]; [by intros ?%elem_of_nil|].
  intros [<-|Hel]%elem_of_cons; simpl.
  - destruct (first_rejection ps) as [[? ?]|]; [destruct (_ <? _)|]; eauto.
  - destruct (IH Hel) as [[t' e'] ->].
    destruct q as [[? [?|?]]|]; eauto. destruct (_ <? _); eauto.
Qed.

Ltac member_cases H :=
  repeat (apply elem_of_cons in H as [H|H]; [try discriminate H|]);
  try (apply elem_of_nil in H; destruct H).

Ltac settle_cases :=
  repeat match goal with
         | p : promise _ |- _ => destruct p as [[? [?|?]]|]
         end.

(** C1, as stated, fails: the action does not settle for every
    invocation.  No timeout is set anywhere, so with a network that never
    answers the charts request [refreshAllData] and the handler stay
    pending for ever, and the flag is still on a minute later.  Nor does
    the handler shield itself from a failed member: it catches nothing, so
    with a [refresh] that hands on the promise of its fetch, the failure
    of the charts at 30 ms makes it reject at 30 ms, while the overview is
    in flight until 900 ms. *)
Lemma manual_refresh_stays_pending :
  (let net : UseApi.Network nat :=
     fun url now =>
       if String.eqb url "/api/v1/dashboard/charts" then UseApi.Silent
       else UseApi.Responded (now + 10) (UseApi.MkResponse 200 (UseApi.Json 7%nat) (now + 10)) in
   outcome (UseApi.refreshAllData net 0) = None ∧
   outcome (App.handleRefresh_wired Sync.refresh net 0) = None ∧
   outcome (App.handleRefresh_wired (fun p => p) net 0) = None ∧
   App.isRefreshing (App.handleRefresh_wired Sync.refresh net 0) 60000 = true) ∧
  (let net : UseApi.Network nat :=
     fun url now =>
       if String.eqb url "/api/v1/dashboard/charts"
       then UseApi.Failed (now + 30) "connection reset"
       else UseApi.Responded (now + 900) (UseApi.MkResponse 200 (UseApi.Json 7%nat) (now + 900)) in
   outcome (UseApi.fetcher net "/api/v1/dashboard/overview" 0) = Some (900, Fulfilled 7%nat) ∧
   outcome (App.handleRefresh_wired (fun p => p) net 0)
   = Some (30, Rejected (TypeError "connection reset"))).
Proof. repeat split. Qed.

Lemma handleRefresh_outcome {D} (rO rC rA : Instant → promise D) now :
  outcome (App.handleRefresh rO rC rA now) =
    match first_rejection [rO now; rC now; rA now] with
    | Some (u, e) => Some (Z.max now u, Rejected e)
    | None =>
        match all_fulfilled now [rO now; rC now; rA now] with
        | Some (t, _) => Some (t, Fulfilled tt)
        | None => None
        end
    end.
Proof.
  rewrite handleRefresh_run. unfold Promise_all.
  destruct (first_rejection _) as [[u e]|]; simpl; [do 2 f_equal; lia|].
  destruct (rO now) as [[tO [vO|eO]]|]; try done.
  destruct (rC now) as [[tC [vC|eC]]|]; try done.
  destruct (rA now) as [[tA [vA|eA]]|]; try done.
  simpl. do 2 f_equal. lia.
Qed.

(** C1, amended.  The manual refresh settles exactly when its members let
    it.  [refreshAllData] stays pending exactly when one of its three
    fetches never settles; when they all settle, with any outcome, it
    fulfils at the instant the last of them settles, and it never rejects:
    each fetch is caught.  The handler [handleRefresh], wired to the
    hooks' [refresh], follows the three promises [refresh] returns: it
    fulfils exactly when all three fulfil, at the last of them; it stays
    pending exactly when none rejects and one never settles; and when one
    rejects it rejects with the earliest rejection, without waiting for the
    others.  So the handler is shielded from a failed fetch only by the
    contract of [refresh], the bound [mutate] of [swr]: if its promise
    settles when the fetch does and fulfils whether the fetch succeeded or
    failed, the handler stays pending exactly when one of the three fetches
    never settles, and otherwise fulfils when the last of them settles. *)
Theorem manual_refresh_settles {T D} (net : UseApi.Network T) (now : Instant)
    (mutate : promise T → promise D) :
  let fO := outcome (UseApi.fetcher net (UseApi.key UseApi.useDashboardOverview) now) in
  let fC := outcome (UseApi.fetcher net (UseApi.key UseApi.useChartsData) now) in
  let fA := outcome (UseApi.fetcher net (UseApi.key (UseApi.useRecentActivities None)) now) in
  let members := [mutate fO; mutate fC; mutate fA] in
  let handled := outcome (App.handleRefresh_wired mutate net now) in
  let gO := UseApi.fetch net (UseApi.API_BASE +:+ "/overview") now in
  let gC := UseApi.fetch net (UseApi.API_BASE +:+ "/charts") now in
  let gA := UseApi.fetch net (UseApi.API_BASE +:+ "/recent-activities") now in
  let refreshed := outcome (UseApi.refreshAllData net now) in
  (refreshed = None ↔ gO = None ∨ gC = None ∨ gA = None) ∧
  (∀ tO oO tC oC tA oA,
     gO = Some (tO, oO) → gC = Some (tC, oC) → gA = Some (tA, oA) →
     refreshed = Some (Z.max now (Z.max tO (Z.max tC tA)), Fulfilled tt)) ∧
  (∀ t o, refreshed = Some (t, o) →
     o = Fulfilled tt ∧
     ∃ tO oO tC oC tA oA,
       gO = Some (tO, oO) ∧ gC = Some (tC, oC) ∧ gA = Some (tA, oA) ∧
       tO ≤ t ∧ tC ≤ t ∧ tA ≤ t) ∧
  (∀ t, handled = Some (t, Fulfilled tt) ↔
     ∃ tO vO tC vC tA vA,
       mutate fO = Some (tO, Fulfilled vO) ∧ mutate fC = Some (tC, Fulfilled vC) ∧
       mutate fA = Some (tA, Fulfilled vA) ∧
       t = Z.max now (Z.max tO (Z.max tC tA))) ∧
  (handled = None ↔
     (∀ u e, Some (u, Rejected e) ∉ members) ∧ None ∈ members) ∧
  (∀ t e, handled = Some (t, Rejected e) →
     ∃ u, Some (u, Rejected e) ∈ members ∧ t = Z.max now u ∧
          ∀ u' e', Some (u', Rejected e') ∈ members → u ≤ u') ∧
  (∀ u e, Some (u, Rejected e) ∈ members →
     ∃ t e', handled = Some (t, Rejected e') ∧ t ≤ Z.max now u) ∧
  ((∀ p, match p with
         | Some (t, _) => ∃ v, mutate p = Some (t, Fulfilled v)
         | None => mutate p = None
         end) →
   (handled = None ↔ fO = None ∨ fC = None ∨ fA = None) ∧
   (∀ tO oO tC oC tA oA,
      fO = Some (tO, oO) → fC = Some (tC, oC) → fA = Some (tA, oA) →
      handled = Some (Z.max now (Z.max tO (Z.max tC tA)), Fulfilled tt))).
Proof.
  intros fO fC fA members handled gO gC gA refreshed.
  assert (handled =
            match first_rejection members with
            | Some (u, e) => Some (Z.max now u, Rejected e)
            | None =>
                match all_fulfilled now members with
                | Some (t, _) => Some (t, Fulfilled tt)
                | None => None
                end
            end) as Hh.
  { unfold handled, App.handleRefresh_wired. by rewrite handleRefresh_outcome. }
  assert (refreshed =
            match all_fulfilled now [catch_null gO; catch_null gC; catch_null gA] with
            | Some (t, _) => Some (Z.max now t, Fulfilled tt)
            | None => None
            end) as Hr.
  { unfold refreshed. rewrite refreshAllData_outcome. reflexivity. }
  unfold members in *.
  clearbody fO fC fA gO gC gA handled refreshed. subst handled refreshed.
  split; [|split; [|split; [|split; [|split; [|split; [|split]]]]]].
  - settle_cases; simpl; split; try done; try (intros [?|[?|?]]; done);
      intros _; auto.
  - intros tO oO tC oC tA oA -> -> ->.
    destruct oO, oC, oA; simpl; f_equal; f_equal; lia.
  - intros t o.
    settle_cases; simpl; intros [= <- <-]; (split; [reflexivity|]);
      do 6 eexists; (split; [reflexivity|]); (split; [reflexivity|]);
      (split; [reflexivity|]); lia.
  - intros t.
    destruct (mutate fO) as [[tO [vO|eO]]|], (mutate fC) as [[tC [vC|eC]]|],
      (mutate fA) as [[tA [vA|eA]]|]; simpl;
      repeat match goal with |- context [if ?b then _ else _] => destruct b end;
      (split;
       [ intros [= <-]; do 6 eexists; repeat split; lia
       | intros (? & ? & ? & ? & ? & ? & H1 & H2 & H3 & ->); try discriminate;
         injection H1 as <- <-; injection H2 as <- <-; injection H3 as <- <-;
         do 2 f_equal; lia ]).
  - destruct (mutate fO) as [[tO [vO|eO]]|], (mutate fC) as [[tC [vC|eC]]|],
      (mutate fA) as [[tA [vA|eA]]|]; simpl;
      repeat match goal with |- context [if ?b then _ else _] => destruct b end;
      (split;
       [ first [ discriminate
               | intros _; split;
                 [ intros u e Hin; member_cases Hin
                 | repeat first [apply list_elem_of_here | apply list_elem_of_further] ] ]
       | intros [Hno Hin];
         first [ reflexivity
               | exfalso;
                 first [ by eapply Hno;
                           repeat first [apply list_elem_of_here | apply list_elem_of_further]
                       | by member_cases Hin ] ] ]).
  - intros t e.
    destruct (first_rejection _) as [[u e']|] eqn:Hfirst.
    + intros [= <- <-].
      destruct (first_rejection_earliest _ _ _ Hfirst) as [Hin Hmin]. eauto.
    + by destruct (all_fulfilled _ _) as [[? ?]|].
  - intros u e Hin.
    destruct (first_rejection_Some _ _ _ Hin) as [[t e'] Hfirst]. rewrite Hfirst.
    destruct (first_rejection_earliest _ _ _ Hfirst) as [_ Hmin].
    specialize (Hmin _ _ Hin). eexists _, _. split; [reflexivity | lia].
  - intros Hm.
    pose proof (Hm fO) as HO. pose proof (Hm fC) as HC. pose proof (Hm fA) as HA.
    split.
    + destruct fO as [[tO oO]|]; [destruct HO as [vO ->] | rewrite HO];
        (destruct fC as [[tC oC]|]; [destruct HC as [vC ->] | rewrite HC]);
        (destruct fA as [[tA oA]|]; [destruct HA as [vA ->] | rewrite HA]);
        simpl; split; try done; try (intros [?|[?|?]]; done); intros _; auto.
    + intros tO oO tC oC tA oA -> -> ->.
      destruct HO as [vO ->], HC as [vC ->], HA as [vA ->]. simpl.
      f_equal; f_equal; lia.
Qed.

(** The overview answers after 10 ms, the charts request fails after 50 ms,
    the activities answer 500 after 20 ms: with a [refresh] that keeps its
    contract the handler fulfils at 50 ms. *)
Lemma manual_refresh_settles_witness :
  let net : UseApi.Network nat :=
    fun url now =>
      if String.eqb url "/api/v1/dashboard/overview"
      then UseApi.Responded (now + 10) (UseApi.MkResponse 200 (UseApi.Json 7%nat) (now + 10))
      else if String.eqb url "/api/v1/dashboard/charts"
      then UseApi.Failed (now + 50) "connection reset"
      else UseApi.Responded (now + 20) (UseApi.MkResponse 500 (UseApi.Malformed "oops") (now + 20)) in
  outcome (App.handleRefresh_wired Sync.refresh net 0)
  = Some (Z.max 0 (Z.max 10 (Z.max 50 20)), Fulfilled tt).
Proof.
  intros net.
  assert (∀ p : promise nat,
            match p with
            | Some (t, _) => ∃ v, Sync.refresh p = Some (t, Fulfilled v)
            | None => Sync.refresh p = None
            end) as Hm.
  { intros [[t o]|]; simpl; eauto. }
  destruct (manual_refresh_settles net 0 Sync.refresh) as (_ & _ & _ & _ & _ & _ & _ & H).
  apply (proj2 (H Hm) 10 (Fulfilled 7%nat)
           50 (Rejected (TypeError "connection reset"))
           20 (Rejected (Error "API error: 500"))); reflexivity.
Defined.

(** C2, amended.  For a manual refresh whose three [refresh] calls fulfil,
    [isRefreshing] is true from the instant of invocation until 500 ms
    after the last member has settled, and false before and after: it is
    on for at least 500 ms, and for 500 ms more than the refresh takes. *)
Theorem isRefreshing_window {D} (refreshOverview refreshCharts refreshActivities : Instant → promise D)
    (now tO tC tA : Instant) (vO vC vA : D) :
  refreshOverview now = Some (tO, Fulfilled vO) →
  refreshCharts now = Some (tC, Fulfilled vC) →
  refreshActivities now = Some (tA, Fulfilled vA) →
  let settled_at := Z.max now (Z.max tO (Z.max tC tA)) in
  let run := App.handleRefresh refreshOverview refreshCharts refreshActivities now in
  outcome run = Some (settled_at, Fulfilled tt) ∧
  ∀ t, App.isRefreshing run t = true ↔ now ≤ t < settled_at + 500.
Proof.
  intros HO HC HA settled_at run.
  assert (run = MkRun [(now, true); (settled_at + 500, false)]
                      (Some (settled_at, Fulfilled tt))) as ->.
  { unfold run. rewrite handleRefresh_run, HO, HC, HA. simpl.
    replace (Z.max now (Z.max tO (Z.max tC (Z.max tA now)))) with settled_at
      by (unfold settled_at; lia).
    reflexivity. }
  split; [reflexivity|].
  intros t. unfold App.isRefreshing, state_at, App.isRefreshing_init. simpl.
  destruct (Z.leb_spec (settled_at + 500) t), (Z.leb_spec now t);
    split; try done; unfold settled_at in *; lia.
Qed.

(** Members that settle after 1 ms: the flag is on for 501 ms. *)
Lemma isRefreshing_window_witness :
  let run := App.handleRefresh (fun now => Some (now + 1, Fulfilled tt))
                               (fun now => Some (now + 1, Fulfilled tt))
                               (fun now => Some (now + 1, Fulfilled tt)) 0 in
  outcome run = Some (Z.max 0 (Z.max 1 (Z.max 1 1)), Fulfilled tt) ∧
  ∀ t, App.isRefreshing run t = true ↔ 0 ≤ t < Z.max 0 (Z.max 1 (Z.max 1 1)) + 500.
Proof.
  apply (isRefreshing_window (fun now => Some (now + 1, Fulfilled tt))
                             (fun now => Some (now + 1, Fulfilled tt))
                             (fun now => Some (now + 1, Fulfilled tt))
                             0 1 1 1 tt tt tt); reflexivity.
Defined.

(** C2, as stated, fails: with members that settle 1000 ms after the
    invocation at 0, the later of settlement and invocation + 500 ms is
    1000, yet the flag is still on at 1000 and at 1499; it goes off at
    1500. *)
Lemma isRefreshing_outlasts_slow_refresh :
  let run := App.handleRefresh (fun now => Some (now + 1000, Fulfilled tt))
                               (fun now => Some (now + 1000, Fulfilled tt))
                               (fun now => Some (now + 1000, Fulfilled tt)) 0 in
  outcome run = Some (1000, Fulfilled tt) ∧
  Z.max 1000 (0 + 500) = 1000 ∧
  App.isRefreshing run 1000 = true ∧
  App.isRefreshing run 1499 = true ∧
  App.isRefreshing run 1500 = false.
Proof. repeat split. Qed.

(** ** The store: well-formedness *)

Section StoreFacts.
Context {T : Type}.
Implicit Types (s : Sync.Store T) (k : string) (o : settled T)
               (ev : Sync.event T) (evs : list (Instant * Sync.event T)).

(** *** Well-formedness is kept by every operation *)

Lemma wf_init : Sync.wf (Sync.init (T:=T)).
Proof.
  split; [|split; [|split]]; simpl.
  - intros k p H. by rewrite lookup_empty in H.
  - intros k p H. by apply elem_of_nil in H.
  - intros p o H. by rewrite lookup_empty in H.
  - constructor.
Qed.

Lemma wf_set k pt s : Sync.wf s → Sync.wf (Sync.set k pt s).
Proof. intros H. exact H. Qed.

Lemma wf_run k s : Sync.wf s → Sync.wf (Sync.run k s).2.
Proof.
  intros (Hin & Hlog & Hres & Hnd). unfold Sync.run.
  destruct (Sync.inflight s !! k) as [p|] eqn:E; [done|].
  split; [|split; [|split]]; simpl.
  - intros k' p'. destruct (decide (k = k')) as [<-|Hne].
    + rewrite lookup_insert_eq. intros [= <-]. split; [by left|].
      destruct (Sync.resolved s !! Sync.nextId s) eqn:R; [|done].
      apply Hres in R. lia.
    + rewrite lookup_insert_ne by done. intros H.
      destruct (Hin _ _ H). split; [by right|done].
  - intros k' p' [[= -> ->]|H]%elem_of_cons.
    + split; [lia|]. intros _. by rewrite lookup_insert_eq.
    + destruct (Hlog _ _ H) as [Hlt Hopen]. split; [lia|].
      intros R. specialize (Hopen R).
      destruct (decide (k = k')) as [<-|Hne]; [congruence|].
      by rewrite lookup_insert_ne.
  - intros p o R. apply Hres in R. lia.
  - constructor; [|done].
    intros Hel. apply list_elem_of_fmap in Hel as ([k' p'] & Heq & Hel).
    simpl in Heq. subst p'. apply Hlog in Hel as [Hlt _]. lia.
Qed.

Lemma wf_revalidate k s : Sync.wf s → Sync.wf (Sync.revalidate k s).2.
Proof. intros H. unfold Sync.revalidate. by apply wf_run, wf_set. Qed.

Lemma inflight_inj s k k' p :
  Sync.wf s → Sync.inflight s !! k = Some p → Sync.inflight s !! k' = Some p → k = k'.
Proof.
  intros (Hin & _ & _ & Hnd) H1 H2.
  apply Hin in H1 as [H1 _]. apply Hin in H2 as [H2 _].
  apply list_elem_of_lookup in H1 as [i Hi]. apply list_elem_of_lookup in H2 as [j Hj].
  assert (i = j) as ->.
  { eapply NoDup_lookup; [exact Hnd| |]; rewrite list_lookup_fmap.
    - by rewrite Hi.
    - by rewrite Hj. }
  congruence.
Qed.

Lemma wf_settle k o t s : Sync.wf s → Sync.wf (Sync.settle k o t s).
Proof.
  intros Hwf. pose proof Hwf as (Hin & Hlog & Hres & Hnd). unfold Sync.settle.
  destruct (Sync.inflight s !! k) as [p|] eqn:E; [|done].
  apply wf_set.
  split; [|split; [|split]]; simpl.
  - intros k' p'. destruct (decide (k = k')) as [<-|Hne].
    + by rewrite lookup_delete_eq.
    + rewrite lookup_delete_ne by done. intros H.
      destruct (Hin _ _ H) as [Hel R]. split; [done|].
      rewrite lookup_insert_ne; [done|].
      intros <-. apply Hne. by eapply inflight_inj.
  - intros k' p' Hel. destruct (Hlog _ _ Hel) as [Hlt Hopen]. split; [done|].
    destruct (decide (p = p')) as [<-|Hne].
    + by rewrite lookup_insert_eq.
    + rewrite lookup_insert_ne by done. intros R. specialize (Hopen R).
      destruct (decide (k = k')) as [<-|Hk]; [congruence|].
      by rewrite lookup_delete_ne.
  - intros p' o'. destruct (decide (p = p')) as [<-|Hne].
    + intros _. apply Hin in E as [E _]. by apply Hlog in E as [E _].
    + rewrite lookup_insert_ne by done. apply Hres.
  - done.
Qed.

Lemma wf_step s te : Sync.wf s → Sync.wf (Sync.step s te).
Proof.
  intros H. unfold Sync.step. destruct (te.2) as [k|k|k|k o].
  - destruct (Sync.fetching k s); [done | by apply wf_revalidate].
  - destruct (Sync.fetching k s); [done | by apply wf_revalidate].
  - by apply wf_revalidate.
  - by apply wf_settle.
Qed.

Lemma wf_play evs s : Sync.wf s → Sync.wf (Sync.play evs s).
Proof.
  revert s. induction evs as [|te evs IH]; intros s H; simpl; [done|].
  apply IH. by apply wf_step.
Qed.

Lemma reachable_wf s : Sync.reachable s → Sync.wf s.
Proof. intros [evs ->]. apply wf_play, wf_init. Qed.

Lemma play_app evs1 evs2 s :
  Sync.play (evs1 ++ evs2) s = Sync.play evs2 (Sync.play evs1 s).
Proof. unfold Sync.play. apply fold_left_app. Qed.

Lemma reachable_step s te : Sync.reachable s → Sync.reachable (Sync.step s te).
Proof.
  intros [evs ->]. exists (evs ++ [te]). by rewrite play_app.
Qed.

End StoreFacts.

(** ** Deduplication *)

Section Dedup.
Context {T : Type}.
Implicit Types (s : Sync.Store T) (k : string) (o : settled T)
               (ev : Sync.event T) (evs : list (Instant * Sync.event T)).

Lemma in_flight_elem s k kp :
  kp ∈ Sync.in_flight k s ↔
  kp ∈ Sync.fetchLog s ∧ kp.1 = k ∧ Sync.resolved s !! kp.2 = None.
Proof.
  unfold Sync.in_flight, Sync.invocations, Sync.pending.
  rewrite !list_elem_of_In, !filter_In, bool_decide_eq_true.
  destruct (Sync.resolved s !! kp.2); intuition congruence.
Qed.

Lemma in_flight_NoDup s k : Sync.wf s → NoDup (Sync.in_flight k s).
Proof.
  intros (_ & _ & _ & Hnd). apply NoDup_fmap_1 in Hnd.
  unfold Sync.in_flight, Sync.invocations.
  apply NoDup_ListNoDup, List.NoDup_filter, List.NoDup_filter, NoDup_ListNoDup, Hnd.
Qed.

(** Under well-formedness the in-flight invocations of a key are read off
    the registry. *)
Lemma in_flight_registry s k :
  Sync.wf s →
  Sync.in_flight k s = match Sync.inflight s !! k with
                       | Some p => [(k, p)]
                       | None => []
                       end.
Proof.
  intros Hwf. pose proof Hwf as (Hin & Hlog & _ & _).
  pose proof (in_flight_NoDup s k Hwf) as Hnd.
  assert (∀ kp, kp ∈ Sync.in_flight k s ↔ Sync.inflight s !! k = Some kp.2 ∧ kp.1 = k) as Hel.
  { intros [k' p]. rewrite in_flight_elem. simpl. split.
    - intros (Hl & -> & R). split; [|done]. by apply Hlog.
    - intros (Hi & ->). destruct (Hin _ _ Hi). done. }
  destruct (Sync.inflight s !! k) as [p|] eqn:E.
  - destruct (Sync.in_flight k s) as [|kp1 l] eqn:El.
    + exfalso. assert ((k, p) ∈ @nil (string * nat)) as H by (by apply Hel).
      by apply elem_of_nil in H.
    + assert (kp1 = (k, p)) as ->.
      { destruct kp1 as [k1 p1]. destruct (proj1 (Hel (k1, p1))) as [[= ->] Hk]; [by left|].
        simpl in Hk. by subst. }
      destruct l as [|kp2 l]; [done|]. exfalso.
      assert (kp2 = (k, p)) as ->.
      { destruct kp2 as [k2 p2].
        destruct (proj1 (Hel (k2, p2))) as [[= ->] Hk]; [right; by left|].
        simpl in Hk. by subst. }
      apply NoDup_cons in Hnd as [Hnot _]. apply Hnot. by left.
  - destruct (Sync.in_flight k s) as [|kp1 l]; [done|]. exfalso.
    destruct (proj1 (Hel kp1)) as [? _]; [by left|done].
Qed.

Lemma run_idle s k :
  Sync.inflight s !! k = None →
  Sync.run k s =
    (Sync.nextId s,
     Sync.MkStore (Sync.cache s) (<[k := Sync.nextId s]> (Sync.inflight s))
                  (Sync.resolved s) ((k, Sync.nextId s) :: Sync.fetchLog s)
                  (S (Sync.nextId s))).
Proof. intros E. unfold Sync.run. by rewrite E. Qed.

Lemma run_busy s k p :
  Sync.inflight s !! k = Some p → Sync.run k s = (p, s).
Proof. intros E. unfold Sync.run. by rewrite E. Qed.

Lemma run_many_busy n s k p :
  Sync.inflight s !! k = Some p → Sync.run_many n k s = (replicate n p, s).
Proof.
  intros E. induction n as [|n IH]; simpl; [done|].
  by rewrite (run_busy s k p E), IH.
Qed.

End Dedup.

(** C6.  In every store the event loop can reach, a key has at most one
    Fetch Client invocation in flight.  When [n] callers ask the
    Deduplicator for an idle key, the fetch function is invoked exactly
    once, every caller holds the same promise, and on settlement each of
    them receives the outcome as it is; no invocation is then in flight.
    Callers that arrive while a fetch is in flight get its promise and
    invoke nothing. *)
Theorem one_fetch_in_flight {T} (s : Sync.Store T) (k : string) :
  Sync.reachable s →
  (length (Sync.in_flight k s) ≤ 1)%nat ∧
  (∀ (n : nat) (o : settled T) (t : Instant),
     Sync.inflight s !! k = None → (1 ≤ n)%nat →
     let p := Sync.nextId s in
     let callers := (Sync.run_many n k s).1 in
     let s1 := (Sync.run_many n k s).2 in
     let s2 := Sync.settle k o t s1 in
     callers = replicate n p ∧
     Sync.invocations k s1 = (k, p) :: Sync.invocations k s ∧
     Sync.in_flight k s1 = [(k, p)] ∧
     Sync.resolved s1 !! p = None ∧
     (∀ c, c ∈ callers → Sync.resolved s2 !! c = Some o) ∧
     Sync.invocations k s2 = Sync.invocations k s1 ∧
     Sync.in_flight k s2 = []) ∧
  (∀ (n : nat) (p : nat),
     Sync.inflight s !! k = Some p →
     Sync.run_many n k s = (replicate n p, s)).
Proof.
  intros Hr. pose proof (reachable_wf s Hr) as Hwf.
  split; [|split; [|intros n p Hbusy; by apply run_many_busy]].
  - rewrite in_flight_registry by done. destruct (Sync.inflight s !! k); simpl; lia.
  - intros n o t Hidle Hn p callers s1 s2.
    destruct n as [|n]; [lia|].
    assert (Sync.run_many (S n) k s = (replicate (S n) p, (Sync.run k s).2)) as Hrun.
    { simpl. rewrite (run_idle s k Hidle). simpl.
      rewrite (run_many_busy n _ k p); [done|]. simpl. by rewrite lookup_insert_eq. }
    assert (Sync.wf s1) as Hwf1.
    { unfold s1. rewrite Hrun. simpl. by apply wf_run. }
    assert (Sync.inflight s1 !! k = Some p) as Hopen.
    { unfold s1. rewrite Hrun, (run_idle s k Hidle). simpl. by rewrite lookup_insert_eq. }
    assert (Sync.wf s2) as Hwf2 by (by apply wf_settle).
    split; [by unfold callers; rewrite Hrun|].
    split.
    { unfold s1. rewrite Hrun, (run_idle s k Hidle). unfold Sync.invocations. simpl.
      by rewrite bool_decide_eq_true_2. }
    split; [by rewrite in_flight_registry, Hopen|].
    split; [by destruct Hwf1 as (Hin & _); apply Hin in Hopen as [_ ?]|].
    split.
    { intros c Hc. unfold callers in Hc. rewrite Hrun in Hc. simpl in Hc.
      assert (c = p) as ->.
      { apply elem_of_cons in Hc as [->|Hc]; [done|].
        by apply elem_of_replicate in Hc as [-> _]. }
      unfold s2, Sync.settle. rewrite Hopen. simpl. by rewrite lookup_insert_eq. }
    split.
    { unfold s2, Sync.settle. rewrite Hopen. reflexivity. }
    rewrite in_flight_registry by done.
    unfold s2, Sync.settle. rewrite Hopen. simpl. by rewrite lookup_delete_eq.
Qed.

(** Three callers on the fresh store share promise 0. *)
Lemma one_fetch_in_flight_witness :
  (length (Sync.in_flight "/api/v1/dashboard/overview" (Sync.init (T:=nat))) ≤ 1)%nat ∧
  (Sync.run_many 3 "/api/v1/dashboard/overview" (Sync.init (T:=nat))).1 = replicate 3 0%nat.
Proof.
  assert (Sync.reachable (Sync.init (T:=nat))) as Hr by (exists []; reflexivity).
  destruct (one_fetch_in_flight (Sync.init (T:=nat)) "/api/v1/dashboard/overview" Hr)
    as (Hone & Hmany & _).
  split; [exact Hone|].
  apply (Hmany 3%nat (Fulfilled 1%nat) 0); [reflexivity | lia].
Defined.

(** ** The cache under settlement *)

Section CacheFacts.
Context {T : Type}.
Implicit Types (s : Sync.Store T) (k : string) (o : settled T)
               (ev : Sync.event T) (evs : list (Instant * Sync.event T)).

Lemma get_set_eq k pt s :
  Sync.get k (Sync.set k pt s)
  = Some (Sync.apply_patch pt (default Sync.empty_entry (Sync.get k s))).
Proof. unfold Sync.get, Sync.set. simpl. by rewrite lookup_insert_eq. Qed.

Lemma get_set_ne k k' pt s :
  k ≠ k' → Sync.get k' (Sync.set k pt s) = Sync.get k' s.
Proof. intros H. unfold Sync.get, Sync.set. simpl. by rewrite lookup_insert_ne. Qed.

Lemma get_run k k' s : Sync.get k' (Sync.run k s).2 = Sync.get k' s.
Proof. unfold Sync.run. by destruct (Sync.inflight s !! k). Qed.

Lemma inflight_set k k' pt s :
  Sync.inflight (Sync.set k pt s) !! k' = Sync.inflight s !! k'.
Proof. reflexivity. Qed.

(** The revalidation primitive only raises the [isValidating] flag of its
    key. *)
Lemma get_revalidate_eq k s :
  Sync.get k (Sync.revalidate k s).2
  = Some (let e := default Sync.empty_entry (Sync.get k s) in
          Sync.MkEntry (Sync.data e) (Sync.error e) (Sync.fetchedAt e) true).
Proof. unfold Sync.revalidate. by rewrite get_run, get_set_eq. Qed.

Lemma get_revalidate_ne k k' s :
  k ≠ k' → Sync.get k' (Sync.revalidate k s).2 = Sync.get k' s.
Proof. intros H. unfold Sync.revalidate. by rewrite get_run, get_set_ne. Qed.

Lemma inflight_revalidate_eq k s :
  is_Some (Sync.inflight (Sync.revalidate k s).2 !! k).
Proof.
  unfold Sync.revalidate, Sync.run, Sync.set. simpl.
  destruct (Sync.inflight s !! k) eqn:E; simpl.
  - rewrite E. eauto.
  - rewrite lookup_insert_eq. eauto.
Qed.



Lemma get_settle_eq k o t s p :
  Sync.inflight s !! k = Some p →
  Sync.get k (Sync.settle k o t s)
  = Some (Sync.apply_patch (Sync.commit o t) (default Sync.empty_entry (Sync.get k s))).
Proof. intros E. unfold Sync.settle. rewrite E. by rewrite get_set_eq. Qed.

Lemma get_settle_ne k k' o t s :
  k ≠ k' → Sync.get k' (Sync.settle k o t s) = Sync.get k' s.
Proof.
  intros H. unfold Sync.settle. destruct (Sync.inflight s !! k); [|done].
  by rewrite get_set_ne.
Qed.

Lemma inflight_settle_eq k o t s : Sync.inflight (Sync.settle k o t s) !! k = None.
Proof.
  unfold Sync.settle. destruct (Sync.inflight s !! k) eqn:E; [|done].
  simpl. by rewrite lookup_delete_eq.
Qed.


(** *** Stale-while-error: no event takes stored data away *)

Lemma stamp_revalidate k k' s :
  Sync.stamp k' (Sync.revalidate k s).2 = Sync.stamp k' s.
Proof.
  unfold Sync.stamp. destruct (decide (k = k')) as [<-|Hne].
  - by rewrite get_revalidate_eq.
  - by rewrite get_revalidate_ne.
Qed.

Lemma stamp_settle_ne k k' o t s :
  k ≠ k' → Sync.stamp k' (Sync.settle k o t s) = Sync.stamp k' s.
Proof. intros H. unfold Sync.stamp. by rewrite get_settle_ne. Qed.

Lemma stamp_settle_rejected k e t s :
  Sync.stamp k (Sync.settle k (Rejected e) t s) = Sync.stamp k s.
Proof.
  unfold Sync.stamp, Sync.settle. destruct (Sync.inflight s !! k) eqn:E; [|done].
  by rewrite get_set_eq.
Qed.

Lemma stamp_step_other k s te :
  (∀ o, te.2 ≠ Sync.Settle k o) → Sync.stamp k (Sync.step s te) = Sync.stamp k s.
Proof.
  intros H. unfold Sync.step. destruct (te.2) as [k'|k'|k'|k' o].
  - destruct (Sync.fetching k' s); [done | apply stamp_revalidate].
  - destruct (Sync.fetching k' s); [done | apply stamp_revalidate].
  - apply stamp_revalidate.
  - apply stamp_settle_ne. intros ->. by eapply H.
Qed.

Lemma data_kept_step k s te :
  is_Some (Sync.stamp k s).1 → is_Some (Sync.stamp k (Sync.step s te)).1.
Proof.
  intros H. destruct (te.2) as [k'|k'|k'|k' o] eqn:E;
    try (rewrite stamp_step_other; [done | intros o'; rewrite E; discriminate]).
  destruct (decide (k' = k)) as [->|Hne].
  - unfold Sync.step. rewrite E. destruct o as [v|e].
    + unfold Sync.stamp, Sync.settle.
      destruct (Sync.inflight s !! k); [|done]. rewrite get_set_eq. simpl. eauto.
    + by rewrite stamp_settle_rejected.
  - rewrite stamp_step_other; [done|]. intros o'. rewrite E. congruence.
Qed.

Lemma data_kept_play k evs s :
  is_Some (Sync.stamp k s).1 → is_Some (Sync.stamp k (Sync.play evs s)).1.
Proof.
  revert s. induction evs as [|te evs IH]; intros s H; simpl; [done|].
  by apply IH, data_kept_step.
Qed.

Lemma stamp_play_other k evs s :
  (∀ te o, te ∈ evs → te.2 ≠ Sync.Settle k o) →
  Sync.stamp k (Sync.play evs s) = Sync.stamp k s.
Proof.
  revert s. induction evs as [|te evs IH]; intros s H; simpl; [done|].
  rewrite IH.
  - apply stamp_step_other. intros o. apply H. by left.
  - intros te' o Hel. apply H. by right.
Qed.

End CacheFacts.

(** C5.  Stored data is never taken away: whatever events follow, an entry
    that holds data still holds data.  After a successful fetch the entry
    holds the payload and the instant of the fetch; after a later failed
    fetch for the same key (with any events but a settlement of that key in
    between) the data and [fetchedAt] are those of the success, and the
    error is set. *)
Theorem stale_while_error {T} (s : Sync.Store T) (k : string) :
  (∀ evs, is_Some (Sync.stamp k s).1 → is_Some (Sync.stamp k (Sync.play evs s)).1) ∧
  (∀ (v : T) (e : JsError) (t1 t2 : Instant) evs,
     Sync.fetching k s = true →
     (∀ te o, te ∈ evs → te.2 ≠ Sync.Settle k o) →
     let s1 := Sync.settle k (Fulfilled v) t1 s in
     let s2 := Sync.play evs s1 in
     let s3 := Sync.settle k (Rejected e) t2 s2 in
     Sync.fetching k s2 = true →
     Sync.stamp k s1 = (Some v, Some t1) ∧
     Sync.stamp k s3 = (Some v, Some t1) ∧
     Sync.error <$> Sync.get k s3 = Some (Some e)).
Proof.
  split; [intros evs; apply data_kept_play|].
  intros v e t1 t2 evs Hbusy Hevs s1 s2 s3 Hbusy2.
  unfold Sync.fetching in Hbusy, Hbusy2.
  apply bool_decide_eq_true in Hbusy as [p Hp].
  apply bool_decide_eq_true in Hbusy2 as [p2 Hp2].
  assert (Sync.stamp k s1 = (Some v, Some t1)) as H1.
  { unfold s1, Sync.stamp. by rewrite (get_settle_eq _ _ _ _ _ Hp). }
  split; [done|]. split.
  - unfold s3. rewrite stamp_settle_rejected. unfold s2.
    by rewrite stamp_play_other.
  - unfold s3. by rewrite (get_settle_eq _ _ _ _ _ Hp2).
Qed.

(** A success at 10 ms, a tick at 30 s whose fetch fails at 30.05 s. *)
Lemma stale_while_error_witness :
  let k := "/api/v1/dashboard/overview" in
  let s := Sync.step (Sync.init (T:=nat)) (0, Sync.Refresh k) in
  let s1 := Sync.settle k (Fulfilled 7%nat) 10 s in
  let s2 := Sync.play [(30000, Sync.Tick k)] s1 in
  let s3 := Sync.settle k (Rejected (TypeError "offline")) 30050 s2 in
  Sync.stamp k s1 = (Some 7%nat, Some 10) ∧
  Sync.stamp k s3 = (Some 7%nat, Some 10) ∧
  Sync.error <$> Sync.get k s3 = Some (Some (TypeError "offline")).
Proof.
  intros k s.
  apply (proj2 (stale_while_error s k) 7%nat (TypeError "offline") 10 30050
           [(30000, Sync.Tick k)]).
  - reflexivity.
  - intros te o Hel. apply list_elem_of_singleton in Hel. subst te. discriminate.
  - reflexivity.
Defined.

Section Idempotence.
Context {T : Type}.
Implicit Types (s : Sync.Store T) (k : string) (o : settled T).

Lemma read_settle_twice k o t t' s s' p p' :
  Sync.inflight s !! k = Some p →
  Sync.inflight s' !! k = Some p' →
  Sync.stamp k s' = Sync.stamp k (Sync.settle k o t s) →
  Sync.read k (Sync.settle k o t' s') = Sync.read k (Sync.settle k o t s).
Proof.
  intros Hp Hp' Hst. unfold Sync.read.
  rewrite (get_settle_eq _ _ _ _ _ Hp), (get_settle_eq _ _ _ _ _ Hp').
  unfold Sync.stamp in Hst. rewrite (get_settle_eq _ _ _ _ _ Hp) in Hst.
  destruct o as [v|e]; simpl in *; [done|].
  by injection Hst as -> _.
Qed.

Lemma revalidate_idle k s :
  Sync.inflight s !! k = None →
  (Sync.revalidate k s).1 = Sync.nextId s ∧
  Sync.inflight (Sync.revalidate k s).2 !! k = Some (Sync.nextId s) ∧
  Sync.invocations k (Sync.revalidate k s).2 = (k, Sync.nextId s) :: Sync.invocations k s ∧
  Sync.nextId (Sync.revalidate k s).2 = S (Sync.nextId s).
Proof.
  intros E. unfold Sync.revalidate. rewrite run_idle by done.
  unfold Sync.invocations. simpl.
  by rewrite lookup_insert_eq, bool_decide_eq_true_2.
Qed.

End Idempotence.

(** C7.  Two [refresh()] calls on an idle key, the second after the first
    has settled, with the same outcome from the backend: each call invokes
    the fetch function, under a promise of its own, and what the cache
    returns for the key (data, error, isValidating) is the same after
    each.  The [fetchedAt] stamp of a success is that of its own
    settlement. *)
Theorem refresh_twice {T} (s : Sync.Store T) (k : string) (o : settled T)
    (t0 t1 t2 t3 : Instant) :
  Sync.reachable s →
  Sync.fetching k s = false →
  let s1 := Sync.step s (t0, Sync.Refresh k) in
  let s2 := Sync.step s1 (t1, Sync.Settle k o) in
  let s3 := Sync.step s2 (t2, Sync.Refresh k) in
  let s4 := Sync.step s3 (t3, Sync.Settle k o) in
  (∃ p p', p ≠ p' ∧
     Sync.invocations k s2 = (k, p) :: Sync.invocations k s ∧
     Sync.invocations k s4 = (k, p') :: (k, p) :: Sync.invocations k s) ∧
  Sync.fetching k s2 = false ∧
  Sync.read k s4 = Sync.read k s2 ∧
  (∀ v, o = Fulfilled v →
     Sync.read k s2 = (Some v, None, false) ∧
     Sync.stamp k s2 = (Some v, Some t1) ∧ Sync.stamp k s4 = (Some v, Some t3)).
Proof.
  intros Hr Hidle s1 s2 s3 s4.
  pose proof (reachable_wf s Hr) as Hwf.
  unfold Sync.fetching in Hidle. apply bool_decide_eq_false in Hidle.
  assert (Sync.inflight s !! k = None) as Hnone.
  { destruct (Sync.inflight s !! k) eqn:E; [|done]. exfalso. apply Hidle. eauto. }
  assert (s1 = (Sync.revalidate k s).2) as Hs1 by reflexivity.
  destruct (revalidate_idle k s Hnone) as (_ & Hp1 & Hi1 & Hn1). rewrite <- Hs1 in Hp1, Hi1, Hn1.
  assert (s2 = Sync.settle k o t1 s1) as Hs2 by reflexivity.
  assert (Sync.inflight s2 !! k = None) as Hp2 by (rewrite Hs2; apply inflight_settle_eq).
  assert (Sync.invocations k s2 = Sync.invocations k s1 ∧ Sync.nextId s2 = Sync.nextId s1)
    as [Hi2 Hn2].
  { rewrite Hs2. unfold Sync.settle. rewrite Hp1. done. }
  assert (s3 = (Sync.revalidate k s2).2) as Hs3 by reflexivity.
  destruct (revalidate_idle k s2 Hp2) as (_ & Hp3 & Hi3 & Hn3). rewrite <- Hs3 in Hp3, Hi3, Hn3.
  assert (s4 = Sync.settle k o t3 s3) as Hs4 by reflexivity.
  assert (Sync.invocations k s4 = Sync.invocations k s3) as Hi4.
  { rewrite Hs4. unfold Sync.settle. rewrite Hp3. done. }
  split; [|split; [|split]].
  - exists (Sync.nextId s), (Sync.nextId s2).
    split; [rewrite Hn2, Hn1; lia|].
    split; [by rewrite Hi2, Hi1 | by rewrite Hi4, Hi3, Hi2, Hi1].
  - unfold Sync.fetching. apply bool_decide_eq_false. rewrite Hp2. by intros [? ?].
  - rewrite Hs4, Hs2. apply (read_settle_twice k o t1 t3 s1 s3 _ _ Hp1 Hp3).
    rewrite Hs3, stamp_revalidate. by rewrite Hs2.
  - intros v ->. rewrite Hs4, Hs2. unfold Sync.read, Sync.stamp.
    by rewrite (get_settle_eq _ _ _ _ _ Hp1), (get_settle_eq _ _ _ _ _ Hp3).
Qed.

(** Two refreshes of the charts on the fresh store. *)
Lemma refresh_twice_witness :
  let k := "/api/v1/dashboard/charts" in
  let s := Sync.init (T:=nat) in
  let s2 := Sync.step (Sync.step s (0, Sync.Refresh k)) (10, Sync.Settle k (Fulfilled 4%nat)) in
  let s4 := Sync.step (Sync.step s2 (20, Sync.Refresh k)) (30, Sync.Settle k (Fulfilled 4%nat)) in
  Sync.read k s4 = Sync.read k s2.
Proof.
  intros k s.
  assert (Sync.reachable s) as Hr by (exists []; reflexivity).
  assert (Sync.fetching k s = false) as Hidle by reflexivity.
  destruct (refresh_twice s k (Fulfilled 4%nat) 0 10 20 30 Hr Hidle) as (_ & _ & H & _).
  exact H.
Defined.

(** ** The refresh batch *)

Section Coordinator.
Context {T : Type}.
Implicit Types (s : Sync.Store T) (k : string) (o : settled T)
               (ev : Sync.event T) (evs : list (Instant * Sync.event T)).



(** *** Events about other keys *)







End Coordinator.

(** ** A run of the handler on the store *)

Section Handler.
Context {T : Type}.
Implicit Types (s : Sync.Store T) (k : string) (o : settled T)
               (te : Instant * Sync.event T) (evs : list (Instant * Sync.event T)).







(** The settlement of a fetch comes at or after its start. *)
Lemma fetcher_settles_later (net : UseApi.Network T) url now t o :
  outcome (UseApi.fetcher net url now) = Some (t, o) → now ≤ t.
Proof.
  rewrite fetcher_outcome. destruct (net url now) as [|u m|u r].
  - discriminate.
  - intros [= <- _]. lia.
  - destruct (UseApi.ok r); intros [= <- _]; lia.
Qed.



End Handler.




(** ** More on the fetch client *)

(** X1.  [fetcher] fulfils with a value exactly when the network answered
    with a status in 200-299 and a body that is the JSON of that value; it
    then settles when the body has been read, not before the call. *)
Theorem fetcher_fulfils_iff {T} (net : UseApi.Network T) (url : string)
    (now t : Instant) (v : T) :
  outcome (UseApi.fetcher net url now) = Some (t, Fulfilled v) ↔
  ∃ u r, net url now = UseApi.Responded u r ∧
         200 ≤ UseApi.status r ≤ 299 ∧
         UseApi.body r = UseApi.Json v ∧
         t = Z.max (Z.max now u) (UseApi.body_at r).
Proof.
  rewrite fetcher_outcome. split.
  - destruct (net url now) as [|u m|u r]; try discriminate.
    destruct (UseApi.ok r) eqn:Hok; [|discriminate].
    destruct (UseApi.body r) eqn:Hb; intros [= <- <-].
    exists u, r. apply ok_2xx in Hok. done.
  - intros (u & r & -> & Hok & Hb & ->). apply ok_2xx in Hok.
    by rewrite Hok, Hb.
Qed.

(** A 200 answer with the JSON of 7, read 12 ms after the call. *)
Lemma fetcher_fulfils_iff_witness :
  let net : UseApi.Network nat :=
    fun _ now => UseApi.Responded (now + 10) (UseApi.MkResponse 200 (UseApi.Json 7%nat) (now + 12)) in
  outcome (UseApi.fetcher net "/api/v1/dashboard/overview" 0) = Some (12, Fulfilled 7%nat).
Proof.
  intros net.
  apply (proj2 (fetcher_fulfils_iff net "/api/v1/dashboard/overview" 0 12 7%nat)).
  exists 10, (UseApi.MkResponse 200 (UseApi.Json 7%nat) 12).
  repeat split; simpl; lia.
Defined.

(** X2.  For an answer outside 200-299 [fetcher] never reads the body: two
    answers with the same status arriving at the same instant give the same
    run, whatever their bodies and however long the bodies take; the
    rejection comes at the arrival of the answer and carries the status
    only. *)
Theorem fetcher_drops_error_body {T} (net net' : UseApi.Network T) (url : string)
    (now u : Instant) (r r' : UseApi.Response T) :
  net url now = UseApi.Responded u r →
  net' url now = UseApi.Responded u r' →
  UseApi.status r' = UseApi.status r →
  ¬ (200 ≤ UseApi.status r ≤ 299) →
  UseApi.fetcher net' url now = UseApi.fetcher net url now ∧
  outcome (UseApi.fetcher net url now)
  = Some (Z.max now u, Rejected (Error ("API error: " +:+ showZ (UseApi.status r)))).
Proof.
  intros Hnet Hnet' Hst Hno.
  assert (UseApi.ok r = false) as Hok.
  { destruct (UseApi.ok r) eqn:E; [|done]. apply ok_2xx in E. contradiction. }
  assert (UseApi.ok r' = false) as Hok'.
  { unfold UseApi.ok in *. by rewrite Hst. }
  unfold UseApi.fetcher, UseApi.fetch, bind, await, throw.
  rewrite Hnet, Hnet'. simpl. rewrite Hok, Hok'. simpl. by rewrite Hst.
Qed.

Lemma fetcher_drops_error_body_witness :
  let net : UseApi.Network nat :=
    fun _ now => UseApi.Responded (now + 5) (UseApi.MkResponse 404 (UseApi.Json 1%nat) (now + 9)) in
  let net' : UseApi.Network nat :=
    fun _ now => UseApi.Responded (now + 5) (UseApi.MkResponse 404 (UseApi.Malformed "x") (now + 70)) in
  UseApi.fetcher net' "/api/v1/dashboard/charts" 0 = UseApi.fetcher net "/api/v1/dashboard/charts" 0 ∧
  outcome (UseApi.fetcher net "/api/v1/dashboard/charts" 0)
  = Some (Z.max 0 5, Rejected (Error ("API error: " +:+ showZ 404))).
Proof.
  intros net net'.
  apply (fetcher_drops_error_body net net' "/api/v1/dashboard/charts" 0 5
           (UseApi.MkResponse 404 (UseApi.Json 1%nat) 9)
           (UseApi.MkResponse 404 (UseApi.Malformed "x") 70));
    [reflexivity | reflexivity | reflexivity | simpl; lia].
Defined.

(** ** More on the manual refresh *)

(** X4.  When a [refresh] promise rejects, [handleRefresh] rejects with the
    earliest rejection among the three, at that instant (not before the
    invocation), without waiting for members that settle later or never;
    its only write to the flag is the [true] of the invocation. *)
Theorem handleRefresh_rejects_early {D}
    (refreshOverview refreshCharts refreshActivities : Instant → promise D)
    (now u : Instant) (e : JsError) :
  let members := [refreshOverview now; refreshCharts now; refreshActivities now] in
  let run := App.handleRefresh refreshOverview refreshCharts refreshActivities now in
  Some (u, Rejected e) ∈ members →
  ∃ t e', outcome run = Some (Z.max now t, Rejected e') ∧
          Some (t, Rejected e') ∈ members ∧
          (∀ u' e'', Some (u', Rejected e'') ∈ members → t ≤ u') ∧
          writes run = [(now, true)].
Proof.
  intros members run Hel.
  destruct (first_rejection_Some members u e Hel) as [[t e'] Hfirst].
  destruct (first_rejection_earliest members t e' Hfirst) as [Hin Hmin].
  exists t, e'. unfold run. rewrite handleRefresh_run.
  fold members. unfold Promise_all. rewrite Hfirst. simpl.
  split; [|done]. do 2 f_equal. lia.
Qed.

Lemma handleRefresh_rejects_early_witness :
  let run := App.handleRefresh (fun now => Some (now + 900, Fulfilled tt))
                               (fun now => Some (now + 30, Rejected (TypeError "offline")))
                               (fun _ => None) 0 in
  ∃ t e', outcome run = Some (Z.max 0 t, Rejected e') ∧
          Some (t, Rejected e') ∈ [Some (900, Fulfilled tt);
                                   Some (30, Rejected (TypeError "offline")); None] ∧
          (∀ u' e'', Some (u', Rejected e'') ∈ [Some (900, Fulfilled tt);
                                                Some (30, Rejected (TypeError "offline")); None] →
                     t ≤ u') ∧
          writes run = [(0, true)].
Proof.
  apply (handleRefresh_rejects_early
           (fun now => Some (now + 900, Fulfilled tt))
           (fun now => Some (now + 30, Rejected (TypeError "offline")))
           (fun _ => None) 0 30 (TypeError "offline")).
  right. left.
Defined.

Lemma handleRefresh_flag {D} (rO rC rA : Instant → promise D) now t :
  App.isRefreshing (App.handleRefresh rO rC rA now) t =
    match Promise_all now [rO now; rC now; rA now] with
    | Some (s, Fulfilled _) => (now <=? t) && negb (Z.max now s + 500 <=? t)
    | _ => now <=? t
    end.
Proof.
  rewrite handleRefresh_run. unfold App.isRefreshing, state_at, App.isRefreshing_init.
  destruct (Promise_all _ _) as [[s [v|e]]|]; simpl;
    [destruct (now <=? t), (Z.max now s + 500 <=? t) | destruct (now <=? t) ..];
    reflexivity.
Qed.

Lemma Promise_all_fulfilled_iff {A} now (p1 p2 p3 : promise A) :
  (∃ s vs, Promise_all now [p1; p2; p3] = Some (s, Fulfilled vs)) ↔
  (∃ t1 v1 t2 v2 t3 v3,
     p1 = Some (t1, Fulfilled v1) ∧ p2 = Some (t2, Fulfilled v2) ∧
     p3 = Some (t3, Fulfilled v3)).
Proof.
  split.
  - intros (s & vs & H). unfold Promise_all in H.
    destruct (first_rejection [p1; p2; p3]) as [[u e]|]; [discriminate|].
    destruct p1 as [[t1 [v1|e1]]|], p2 as [[t2 [v2|e2]]|], p3 as [[t3 [v3|e3]]|];
      try discriminate.
    by do 6 eexists.
  - intros (t1 & v1 & t2 & v2 & t3 & v3 & -> & -> & ->). by do 2 eexists.
Qed.

(** X3.  One run of [handleRefresh] puts [isRefreshing] back to false at
    some instant after the invocation exactly when all three [refresh]
    promises fulfil.  When one of them rejects or stays pending, the flag is
    true at every instant from the invocation on.  Before the invocation
    the flag is false. *)
Theorem isRefreshing_resets_iff {D}
    (refreshOverview refreshCharts refreshActivities : Instant → promise D)
    (now : Instant) :
  let run := App.handleRefresh refreshOverview refreshCharts refreshActivities now in
  ((∃ t, now ≤ t ∧ App.isRefreshing run t = false) ↔
   (∃ tO vO tC vC tA vA,
      refreshOverview now = Some (tO, Fulfilled vO) ∧
      refreshCharts now = Some (tC, Fulfilled vC) ∧
      refreshActivities now = Some (tA, Fulfilled vA))) ∧
  (∀ t, t < now → App.isRefreshing run t = false).
Proof.
  intros run. split.
  - rewrite <- (Promise_all_fulfilled_iff now). unfold run. split.
    + intros (t & Ht & Hoff). rewrite handleRefresh_flag in Hoff.
      destruct (Promise_all _ _) as [[s [v|e]]|]; [by eauto|..];
        apply Z.leb_gt in Hoff; lia.
    + intros (s & vs & Hall). exists (Z.max now s + 500).
      split; [lia|]. rewrite handleRefresh_flag, Hall.
      rewrite (proj2 (Z.leb_le (Z.max now s + 500) (Z.max now s + 500))) by lia.
      by rewrite andb_false_r.
  - intros t Ht. unfold run. rewrite handleRefresh_flag.
    assert ((now <=? t) = false) as -> by (apply Z.leb_gt; lia).
    by destruct (Promise_all _ _) as [[s [v|e]]|].
Qed.

Lemma isRefreshing_resets_iff_witness :
  let run := App.handleRefresh (fun now => Some (now + 1, Fulfilled tt))
                               (fun now => Some (now + 1, Fulfilled tt))
                               (fun now => Some (now + 1, Fulfilled tt)) 0 in
  App.isRefreshing run (-1) = false.
Proof.
  intros run.
  apply (proj2 (isRefreshing_resets_iff (fun now => Some (now + 1, Fulfilled tt))
                  (fun now => Some (now + 1, Fulfilled tt))
                  (fun now => Some (now + 1, Fulfilled tt)) 0)).
  lia.
Defined.

(** ** The refresh button *)

Section Clicks.
Context {D : Type}.
Variables (rO rC rA : Instant → promise D).

Lemma state_at_app init ws1 ws2 t :
  state_at init (ws1 ++ ws2) t = state_at (state_at init ws1 t) ws2 t.
Proof. unfold state_at. apply fold_left_app. Qed.

(** The flag read off a log whose runs follow one another, at an instant
    no [true] write is later than. *)
Lemma state_at_turns ws : ∀ busy lo cur t,
  App.runs_in_turn busy lo ws = true →
  (∀ a, (a, true) ∈ ws → a ≤ t) →
  cur = busy || negb (lo <=? t) →
  state_at cur ws t
  = (App.log_end busy lo ws).1 || negb ((App.log_end busy lo ws).2 <=? t).
Proof.
  induction ws as [|[a v] ws IH]; intros busy lo cur t Hturn Hon Hcur; [done|].
  cbn [App.log_end]. unfold state_at. cbn [fold_left fst snd]. fold (state_at).
  change (fold_left _ ws ?i) with (state_at i ws t).
  cbn [App.runs_in_turn] in Hturn.
  destruct busy, v; try discriminate; apply andb_true_iff in Hturn as [Hlo Hturn].
  - apply (IH false a); [done | intros; apply Hon; by right |].
    subst cur. simpl. by destruct (a <=? t).
  - assert (a ≤ t) as Hat by (apply Hon; by left).
    apply (IH true a); [done | intros; apply Hon; by right |].
    apply Z.leb_le in Hat. by rewrite Hat.
Qed.

Lemma runs_in_turn_app ws1 : ∀ busy lo ws2,
  App.runs_in_turn busy lo ws1 = true →
  App.runs_in_turn busy lo (ws1 ++ ws2)
  = App.runs_in_turn (App.log_end busy lo ws1).1 (App.log_end busy lo ws1).2 ws2.
Proof.
  induction ws1 as [|[a v] ws1 IH]; intros busy lo ws2 H; [done|].
  cbn [App.runs_in_turn app App.log_end] in *.
  destruct busy, v; try discriminate; apply andb_true_iff in H as [Hlo H];
    rewrite Hlo; simpl; by apply IH.
Qed.

Lemma in_order_snoc ts t :
  App.in_order (ts ++ [t]) = true →
  App.in_order ts = true ∧ ∀ u, u ∈ ts → u ≤ t.
Proof.
  induction ts as [|u ts IH]; simpl.
  - intros _. split; [done|]. by intros ? ?%elem_of_nil.
  - destruct ts as [|u' ts]; simpl in *.
    + intros [H _]%andb_true_iff. apply Z.leb_le in H. split; [done|].
      intros ? ->%list_elem_of_singleton. done.
    + intros [H1 H2]%andb_true_iff. apply Z.leb_le in H1.
      destruct (IH H2) as [Hin Hle]. split; [by rewrite Hin, (proj2 (Z.leb_le _ _) H1)|].
      intros x [->|Hx]%elem_of_cons; [|by apply Hle].
      specialize (Hle u' (list_elem_of_here _ _)). lia.
Qed.

Lemma clicks_snoc ts t :
  App.clicks rO rC rA (ts ++ [t]) = App.click rO rC rA (App.clicks rO rC rA ts) t.
Proof. unfold App.clicks. by rewrite fold_left_app. Qed.

Lemma handleRefresh_writes now :
  (∃ s, now ≤ s ∧ writes (App.handleRefresh rO rC rA now) = [(now, true); (s + 500, false)]) ∨
  writes (App.handleRefresh rO rC rA now) = [(now, true)].
Proof.
  rewrite handleRefresh_run.
  destruct (Promise_all _ _) as [[s [v|e]]|]; simpl; [left | by right ..].
  exists (Z.max now s). split; [lia | done].
Qed.

(** The log of a session, with a lower bound for its instants. *)
Lemma clicks_in_turn ts : ∀ lo,
  App.in_order ts = true →
  (∀ u, u ∈ ts → lo ≤ u) →
  App.runs_in_turn false lo (App.clicks rO rC rA ts) = true ∧
  (∀ a v, (a, v) ∈ App.clicks rO rC rA ts → lo ≤ a) ∧
  (∀ a, (a, true) ∈ App.clicks rO rC rA ts → a ∈ ts).
Proof.
  induction ts as [|t ts IH] using rev_ind; intros lo Hord Hlo.
  { split; [done|]. split; by intros ? ?%elem_of_nil || intros ? ? ?%elem_of_nil. }
  apply in_order_snoc in Hord as [Hord Hle].
  destruct (IH lo Hord) as (Hturn & Hafter & Hon).
  { intros u Hu. apply Hlo, elem_of_app. by left. }
  assert (lo ≤ t) as Hlot by (apply Hlo, elem_of_app; right; by left).
  rewrite clicks_snoc. unfold App.click.
  set (ws := App.clicks rO rC rA ts) in *.
  destruct (state_at App.isRefreshing_init ws t) eqn:Hflag.
  { split; [done|]. split; [done|]. intros a Ha. apply elem_of_app. left. by apply Hon. }
  change App.isRefreshing_init with false in Hflag.
  rewrite (state_at_turns ws false lo false t) in Hflag; [|done| |].
  2: { intros a Ha. by apply Hle, Hon. }
  2: { apply Z.leb_le in Hlot. by rewrite Hlot. }
  apply orb_false_iff in Hflag as [Hbusy Hend].
  apply negb_false_iff, Z.leb_le in Hend.
  assert (∀ a v, (a, v) ∈ writes (App.handleRefresh rO rC rA t) → lo ≤ a ∧ (v = true → a = t))
    as Hnew.
  { intros a v. destruct (handleRefresh_writes t) as [(s & Hs & ->)| ->].
    - intros [[= -> ->]|[[= -> ->]|?%elem_of_nil]%elem_of_cons]%elem_of_cons;
        try done; split; (lia || done).
    - intros [[= -> ->]|?%elem_of_nil]%elem_of_cons; [done|done]. }
  split; [|split].
  - rewrite runs_in_turn_app by done. rewrite Hbusy.
    destruct (handleRefresh_writes t) as [(s & Hs & ->)| ->]; simpl;
      rewrite (proj2 (Z.leb_le _ _) Hend); [|done].
    by rewrite (proj2 (Z.leb_le (t + 500) (s + 500))) by lia.
  - intros a v [Hold|Hin]%elem_of_app; [exact (Hafter a v Hold) | by destruct (Hnew a v Hin)].
  - intros a [Hold|Hin]%elem_of_app; apply elem_of_app.
    + left. by apply Hon.
    + right. destruct (Hnew a true Hin) as [_ Heq]. rewrite (Heq eq_refl). by left.
Qed.

End Clicks.

Lemma in_order_head t ts :
  App.in_order (t :: ts) = true → ∀ u, u ∈ t :: ts → t ≤ u.
Proof.
  revert t. induction ts as [|u' ts IH]; intros t H u.
  - by intros ->%list_elem_of_singleton.
  - cbn [App.in_order] in H. apply andb_true_iff in H as [H1 H2]. apply Z.leb_le in H1.
    intros [->|Hu]%elem_of_cons; [done|].
    specialize (IH u' H2 u Hu). lia.
Qed.

(** X5.  Clicks on the Refresh button, which is disabled while
    [isRefreshing] is true, never start overlapping refreshes: in the log
    of a session whose clicks come in the order of the clock, every run
    starts at one of the clicks, with no run open, and is closed at least
    500 ms after it started; the next run does not start before. *)
Theorem refresh_clicks_in_turn {D}
    (refreshOverview refreshCharts refreshActivities : Instant → promise D)
    (ts : list Instant) :
  App.in_order ts = true →
  let log := App.clicks refreshOverview refreshCharts refreshActivities ts in
  App.runs_in_turn false (hd 0 ts) log = true ∧
  (∀ a, (a, true) ∈ log → a ∈ ts).
Proof.
  intros Hord log.
  destruct (clicks_in_turn refreshOverview refreshCharts refreshActivities ts (hd 0 ts) Hord)
    as (Hturn & _ & Hon); [|done].
  destruct ts as [|t ts]; [by intros ? ?%elem_of_nil|].
  by apply in_order_head.
Qed.

Lemma refresh_clicks_in_turn_witness :
  let log := App.clicks (fun now => Some (now + 100, Fulfilled tt))
                        (fun now => Some (now + 100, Fulfilled tt))
                        (fun now => Some (now + 100, Fulfilled tt))
                        [0; 50; 599; 600; 700; 1300] in
  App.runs_in_turn false (hd 0 [0; 50; 599; 600; 700; 1300]) log = true ∧
  (∀ a, (a, true) ∈ log → a ∈ [0; 50; 599; 600; 700; 1300]).
Proof.
  apply (refresh_clicks_in_turn (fun now => Some (now + 100, Fulfilled tt))
           (fun now => Some (now + 100, Fulfilled tt))
           (fun now => Some (now + 100, Fulfilled tt))
           [0; 50; 599; 600; 700; 1300]).
  reflexivity.
Defined.

(** ** Fixed-point notation *)

Lemma append_assoc (a b c : string) : (a +:+ b) +:+ c = a +:+ b +:+ c.
Proof.
  induction a as [|ch a IH]; [done|].
  change (String ch ((a +:+ b) +:+ c) = String ch (a +:+ b +:+ c)). by f_equal.
Qed.

Lemma showZ_digit (d : Z) : 0 ≤ d < 10 → String.length (showZ d) = 1%nat.
Proof.
  intros H.
  assert (d = 0 ∨ d = 1 ∨ d = 2 ∨ d = 3 ∨ d = 4 ∨ d = 5 ∨ d = 6 ∨ d = 7 ∨ d = 8 ∨ d = 9)
    as Hd by lia.
  repeat destruct Hd as [->|Hd]; try subst d; reflexivity.
Qed.

(** One digit after the point, for a number that is not negative: the
    tenths nearest to it. *)
Lemma toFixed_1 (x : Q) :
  (0 <= x)%Q →
  let n := Qfloor (x * 10 + (1 # 2))%Q in
  toFixed 1 x = showZ (n / 10) +:+ "." +:+ showZ (n mod 10) ∧
  (inject_Z n - (1 # 2) <= x * 10)%Q ∧ (x * 10 < inject_Z n + (1 # 2))%Q ∧ 0 ≤ n.
Proof.
  intros Hx n.
  assert (ltb x 0 = false) as Hsign.
  { destruct (ltb x 0) eqn:E; [|done]. apply ltb_lt in E. lra. }
  assert (Qabs x == x)%Q as Habs by (by apply Qabs_pos).
  assert (Qfloor (Qabs x * inject_Z (10 ^ Z.of_nat 1) + (1 # 2))%Q = n) as Hn.
  { unfold n. apply Qfloor_comp. rewrite Habs. reflexivity. }
  pose proof (Qfloor_le (x * 10 + (1 # 2))) as Hlo.
  pose proof (Qlt_floor (x * 10 + (1 # 2))) as Hhi.
  fold n in Hlo, Hhi. rewrite inject_Z_plus in Hhi. change (inject_Z 1) with 1%Q in Hhi.
  assert (0 ≤ n) as Hn0.
  { apply Z.lt_succ_r. unfold Z.succ. rewrite Zlt_Qlt, inject_Z_plus.
    change (inject_Z 0) with 0%Q. change (inject_Z 1) with 1%Q. lra. }
  split; [|split; [lra | split; [lra | done]]].
  unfold toFixed. rewrite Hsign, Hn. change (10 ^ Z.of_nat 1) with 10.
  unfold padStart0. rewrite showZ_digit by (apply Z.mod_pos_bound; lia).
  reflexivity.
Qed.

(** Between 1000 and 1050, a double divided by 1000 and rounded to a
    double stays under 1.05: the last place of the dividend is 2^-43 at
    most, a thousandth of which is more than half the last place 2^-52 of
    the quotient. *)
Lemma tonnes_near_one (kg : Q) :
  Double.is_double kg = true → (1000 <= kg)%Q → (kg < 1050)%Q →
  ∃ r, Double.div (Double.Finite kg) (Double.Finite 1000) = Double.Finite r ∧
       (19 # 20 <= r)%Q ∧ (r < 21 # 20)%Q.
Proof.
  intros Hd Hlo Hhi.
  assert (0 < kg)%Q as Hkg by lra.
  destruct (ilog2_spec kg Hkg) as [Klo Khi]. set (pk := Double.ilog2 kg) in *.
  assert (9 ≤ pk) as Hpk1.
  { apply ilog2_ge. change (2 ^ 9)%Q with 512%Q. lra. }
  assert (pk < 11) as Hpk2.
  { apply ilog2_lt; [done|]. change (2 ^ 11)%Q with 2048%Q. lra. }
  destruct (is_double_grid kg pk Hd Klo Khi) as [M HM]; [lia|].
  set (C := 2 ^ (pk - 9)).
  assert (0 < C) as HC by (apply Z.pow_pos_nonneg; lia).
  assert (kg * inject_Z (2 ^ 43) == inject_Z (M * C))%Q as Hgrid.
  { rewrite HM, inject_Z_mult. unfold C. rewrite <- !pow2_inject by lia.
    rewrite <- !Qmult_assoc, <- !pow2_plus. by replace (pk - 52 + 43) with (pk - 9) by lia. }
  assert (M * C + 1 ≤ 1050 * 2 ^ 43) as Hbelow.
  { apply Z.lt_succ_r. unfold Z.succ. apply Z.add_lt_mono_r.
    rewrite Zlt_Qlt, <- Hgrid, inject_Z_mult. change (inject_Z 1050) with 1050%Q.
    apply Qmult_lt_r; [reflexivity | done]. }
  rewrite Zle_Qle, inject_Z_plus, <- Hgrid in Hbelow.
  change (inject_Z (2 ^ 43)) with 8796093022208%Q in Hbelow.
  change (inject_Z 1) with 1%Q in Hbelow.
  change (inject_Z (1050 * 2 ^ 43)) with 9235897673318400%Q in Hbelow.
  cbn [Double.div]. change (Qeq_bool 1000 0) with false. cbn iota.
  assert (kg / 1000 * 1000 == kg)%Q as E by field.
  destruct (binary64_near (kg / 1000) 0) as (r & -> & Hr1 & Hr2).
  { change (2 ^ 0)%Q with 1%Q. lra. }
  { change (2 ^ (0 + 1))%Q with 2%Q. lra. }
  { lia. }
  change (2 ^ (0 - 53))%Q with (1 # 9007199254740992)%Q in Hr1, Hr2.
  exists r. split; [done|]. split; lra.
Qed.

(** X6.  [formatWeight] chooses the unit before it rounds.  Below 1000 kg
    the text is the nearest tenth of a kilogram followed by "kg", so from
    999.95 kg up to 1000 kg it is "1000.0kg".  From 1000 kg on the weight
    is divided by 1000 in doubles and the quotient is printed with one
    digit: every double from 1000 up to 1050 gives "1.0t".  The rounding of
    the quotient shows in the text: 1450 kg gives "1.4t", the double
    nearest to 1.45 being under it, where the exact 1.45 reads "1.5". *)
Theorem formatWeight_near_tonne (kg : Q) :
  ((0 <= kg)%Q → (kg < 1000)%Q →
   let n := Qfloor (kg * 10 + (1 # 2))%Q in
   Formatters.formatWeight (Double.Finite kg)
   = showZ (n / 10) +:+ "." +:+ showZ (n mod 10) +:+ "kg" ∧
   0 ≤ n ≤ 10000) ∧
  ((19999 # 20 <= kg)%Q → (kg < 1000)%Q →
   Formatters.formatWeight (Double.Finite kg) = "1000.0kg") ∧
  (Double.is_double kg = true → (1000 <= kg)%Q → (kg < 1050)%Q →
   Formatters.formatWeight (Double.Finite kg) = "1.0t") ∧
  Formatters.formatWeight (Double.Finite 1450) = "1.4t" ∧
  toFixed 1 (29 # 20) = "1.5".
Proof.
  assert (∀ x, (x < 1000)%Q → Double.ge (Double.Finite x) (Double.Finite 1000) = false) as Hlt.
  { intros x H. cbn. apply negb_false_iff. by apply ltb_lt. }
  assert (∀ x, (1000 <= x)%Q → Double.ge (Double.Finite x) (Double.Finite 1000) = true) as Hge.
  { intros x H. cbn. apply negb_true_iff.
    destruct (ltb x 1000) eqn:E; [|done]. apply ltb_lt in E. lra. }
  assert (∀ x, (0 <= x)%Q → (x < 1050)%Q → (Qabs x < inject_Z (10 ^ 21))%Q) as Hsmall.
  { intros x H0 H1. rewrite Qabs_pos by done.
    change (inject_Z (10 ^ 21)) with 1000000000000000000000%Q. lra. }
  split; [|split; [|split; [|split; vm_compute; reflexivity]]].
  - intros H0 H1 n. unfold Formatters.formatWeight.
    rewrite (Hlt kg H1), toFixed_Finite by (apply Hsmall; lra).
    destruct (toFixed_1 kg H0) as (-> & Hlo & Hhi & Hn). fold n in Hlo, Hhi, Hn |- *.
    split.
    { by rewrite !append_assoc. }
    split; [done|]. apply Z.lt_succ_r. unfold Z.succ. rewrite Zlt_Qlt, inject_Z_plus.
    change (inject_Z 10000) with 10000%Q. change (inject_Z 1) with 1%Q. lra.
  - intros H0 H1. unfold Formatters.formatWeight.
    rewrite (Hlt kg H1), toFixed_Finite by (apply Hsmall; lra).
    destruct (toFixed_1 kg) as (-> & _); [lra|].
    rewrite (Qfloor_unique _ 10000); [reflexivity | |];
      [change (inject_Z 10000) with 10000%Q | change (inject_Z (10000 + 1)) with 10001%Q]; lra.
  - intros Hd H0 H1. unfold Formatters.formatWeight. rewrite (Hge kg H0).
    destruct (tonnes_near_one kg Hd H0 H1) as (r & -> & Hr1 & Hr2).
    rewrite toFixed_Finite by (apply Hsmall; lra).
    destruct (toFixed_1 r) as (-> & _); [lra|].
    rewrite (Qfloor_unique _ 10); [reflexivity | |];
      [change (inject_Z 10) with 10%Q | change (inject_Z (10 + 1)) with 11%Q]; lra.
Qed.

Lemma formatWeight_near_tonne_witness :
  Formatters.formatWeight (Double.Finite 1049) = "1.0t".
Proof.
  destruct (formatWeight_near_tonne 1049) as (_ & _ & H & _).
  apply H; [vm_compute; reflexivity | unfold Qle; simpl; lia | unfold Qlt; simpl; lia].
Defined.

(** ** The route list *)





(** ** Chart labels *)

Lemma occurrences_app c (s u : string) :
  occurrences c (s +:+ u) = (occurrences c s + occurrences c u)%nat.
Proof.
  induction s as [|a s IH]; [done|].
  change (String a s +:+ u) with (String a (s +:+ u)). cbn [occurrences].
  rewrite IH. lia.
Qed.

Lemma length_app_string (s u : string) :
  String.length (s +:+ u) = (String.length s + String.length u)%nat.
Proof.
  induction s as [|a s IH]; [done|].
  change (String a s +:+ u) with (String a (s +:+ u)). cbn [String.length].
  by rewrite IH.
Qed.

Lemma replace_occurrences (s : string) :
  occurrences "_" (replace "_" " " s) = pred (occurrences "_" s).
Proof.
  induction s as [|a s IH]; [done|]. cbn [Js.replace occurrences].
  destruct (Ascii.eqb a "_") eqn:E.
  - rewrite occurrences_app. change (occurrences "_" " ") with 0%nat. lia.
  - cbn [occurrences]. rewrite E, IH. simpl. done.
Qed.

Lemma replace_length (s : string) :
  String.length (replace "_" " " s) = String.length s.
Proof.
  induction s as [|a s IH]; [done|]. cbn [Js.replace].
  destruct (Ascii.eqb a "_"); [by rewrite length_app_string|].
  cbn [String.length]. by rewrite IH.
Qed.

Lemma replace_absent (s : string) :
  occurrences "_" s = 0%nat → replace "_" " " s = s.
Proof.
  induction s as [|a s IH]; [done|]. cbn [Js.replace occurrences].
  destruct (Ascii.eqb a "_"); [discriminate|]. simpl. intros H. by rewrite IH.
Qed.

Lemma replace_first (head tail : string) :
  occurrences "_" head = 0%nat →
  replace "_" " " (head +:+ String "_" tail) = head +:+ String " " tail.
Proof.
  induction head as [|a h IH]; intros H; [reflexivity|].
  change (String a h +:+ String "_" tail) with (String a (h +:+ String "_" tail)).
  change (String a h +:+ String " " tail) with (String a (h +:+ String " " tail)).
  cbn [Js.replace occurrences] in *. destruct (Ascii.eqb a "_"); [discriminate|].
  by rewrite IH.
Qed.

(** X8.  The chart formatters replace the first underscore of a label and
    no other: the result has one underscore less (none less when there was
    none), the same length, and is free of underscores exactly when the
    label had at most one.  A label without underscore is unchanged. *)
Theorem formatter_first_underscore (value : string) :
  occurrences "_" (Charts.formatter value) = pred (occurrences "_" value) ∧
  String.length (Charts.formatter value) = String.length value ∧
  (occurrences "_" value = 0%nat → Charts.formatter value = value) ∧
  (occurrences "_" (Charts.formatter value) = 0%nat ↔ (occurrences "_" value ≤ 1)%nat) ∧
  (∀ head tail : string,
     value = head +:+ String "_" tail →
     occurrences "_" head = 0%nat →
     Charts.formatter value = head +:+ String " " tail).
Proof.
  unfold Charts.formatter.
  split; [apply replace_occurrences|]. split; [apply replace_length|].
  split; [apply replace_absent|]. split.
  - rewrite replace_occurrences. lia.
  - intros head tail ->. apply replace_first.
Qed.

Lemma formatter_first_underscore_witness :
  Charts.formatter "out_for_delivery" = "out" +:+ String " " "for_delivery".
Proof.
  destruct (formatter_first_underscore "out_for_delivery") as (_ & _ & _ & _ & H).
  apply (H "out" "for_delivery"); reflexivity.
Defined.

(** No digit after the point, for a number that is not negative. *)
Lemma toFixed_0 (x : Q) :
  (0 <= x)%Q →
  let n := Qfloor (x + (1 # 2))%Q in
  toFixed 0 x = showZ n ∧
  (inject_Z n - (1 # 2) <= x)%Q ∧ (x < inject_Z n + (1 # 2))%Q.
Proof.
  intros Hx n.
  assert (ltb x 0 = false) as Hsign.
  { destruct (ltb x 0) eqn:E; [|done]. apply ltb_lt in E. lra. }
  assert (Qabs x == x)%Q as Habs by (by apply Qabs_pos).
  assert (Qfloor (Qabs x * inject_Z (10 ^ Z.of_nat 0) + (1 # 2))%Q = n) as Hn.
  { unfold n. apply Qfloor_comp. rewrite Habs. change (inject_Z (10 ^ Z.of_nat 0)) with 1%Q. ring. }
  pose proof (Qfloor_le (x + (1 # 2))) as Hlo.
  pose proof (Qlt_floor (x + (1 # 2))) as Hhi.
  fold n in Hlo, Hhi. rewrite inject_Z_plus in Hhi. change (inject_Z 1) with 1%Q in Hhi.
  split; [|split; lra].
  unfold toFixed. rewrite Hsign, Hn. change (10 ^ Z.of_nat 0) with 1.
  by rewrite Z.div_1_r.
Qed.

(** A share between the double of 0.05 and 1, times 100 and rounded to a
    double, is within 2^-47 of the exact product. *)
Lemma percent_product (percent : Q) :
  (1 # 20 <= percent)%Q → (percent <= 1)%Q →
  ∃ r, Double.mul (Double.Finite percent) (Double.Finite 100) = Double.Finite r ∧
       (percent * 100 - (1 # 140737488355328) <= r)%Q ∧
       (r <= percent * 100 + (1 # 140737488355328))%Q.
Proof.
  intros Hlo Hhi. cbn [Double.mul].
  set (q := (percent * 100)%Q).
  assert (0 < q)%Q as Hq by (unfold q; lra).
  destruct (ilog2_spec q Hq) as [Qlo Qhi]. set (pq := Double.ilog2 q) in *.
  assert (2 ≤ pq) as Hp1.
  { apply ilog2_ge. change (2 ^ 2)%Q with 4%Q. unfold q. lra. }
  assert (pq < 7) as Hp2.
  { apply ilog2_lt; [done|]. change (2 ^ 7)%Q with 128%Q. unfold q. lra. }
  destruct (binary64_near q pq Qlo Qhi) as (r & -> & Hr1 & Hr2); [lia|].
  pose proof (pow2_le (pq - 53) (-47) ltac:(lia)) as Hulp.
  change (2 ^ (-47))%Q with (1 # 140737488355328)%Q in Hulp.
  exists r. split; [done|]. split; lra.
Qed.

(** X9.  The slice label of the order status chart is left out exactly
    for a share under the double of 0.05, which is a little over 1/20.  A
    label that is shown for a share of at most 1 reads an integer from 5 to
    100 followed by "%": the integer nearest to the share times 100 as
    computed in doubles, the larger one of two, and that product is within
    2^-47 of the exact one.  The rounding of the product shows in the
    text: the double of 0.075, which is under 0.075, reads "8%".  A share
    that is not a number gets the label "NaN%". *)
Theorem renderCustomLabel_threshold (cos sin : Double.number → Double.number)
    (cx cy midAngle innerRadius outerRadius : Double.number) (percent : Q) :
  let label share :=
    Charts.renderCustomLabel cos sin cx cy midAngle innerRadius outerRadius share in
  let least := (3602879701896397 # 72057594037927936)%Q in
  Double.binary64 (1 # 20) = Double.Finite least ∧
  (label (Double.Finite percent) = None ↔ (percent < least)%Q) ∧
  ((least <= percent)%Q → (percent <= 1)%Q →
   ∃ l n r, label (Double.Finite percent) = Some l ∧
            Double.mul (Double.Finite percent) (Double.Finite 100) = Double.Finite r ∧
            Charts.text l = showZ n +:+ "%" ∧
            5 ≤ n ≤ 100 ∧
            (inject_Z n - (1 # 2) <= r)%Q ∧ (r < inject_Z n + (1 # 2))%Q ∧
            (percent * 100 - (1 # 140737488355328) <= r)%Q ∧
            (r <= percent * 100 + (1 # 140737488355328))%Q) ∧
  Double.binary64 (3 # 40) = Double.Finite (5404319552844595 # 72057594037927936) ∧
  Charts.text <$> label (Double.binary64 (3 # 40)) = Some "8%" ∧
  Charts.text <$> label Double.NaN = Some "NaN%".
Proof.
  intros label least.
  assert (Double.binary64 (1 # 20) = Double.Finite least) as Hleast
    by (vm_compute; reflexivity).
  assert (Double.binary64 (3 # 40) = Double.Finite (5404319552844595 # 72057594037927936))
    as Hshare by (vm_compute; reflexivity).
  split; [done|].
  unfold label, Charts.renderCustomLabel. rewrite Hleast, Hshare. cbn [Double.lt].
  split; [|split; [|split; [done|split]]].
  - destruct (ltb percent least) eqn:E.
    + apply ltb_lt in E. split; [intros _; exact E | reflexivity].
    + split; [discriminate|]. intros H. apply ltb_lt in H. congruence.
  - intros Hge Hle.
    assert (ltb percent least = false) as ->.
    { destruct (ltb percent least) eqn:E; [|done]. apply ltb_lt in E. lra. }
    assert (1 # 20 <= percent)%Q as H20.
    { apply (Qle_trans _ least); [|done]. unfold least, Qle. simpl. lia. }
    destruct (percent_product percent H20 Hle) as (r & Hmul & Hr1 & Hr2).
    assert (5 <= percent * 100)%Q as H5 by lra.
    assert (least * 100 <= percent * 100)%Q as H5' by lra.
    rewrite Hmul.
    rewrite toFixed_Finite.
    2: { rewrite Qabs_pos by lra. change (inject_Z (10 ^ 21)) with 1000000000000000000000%Q. lra. }
    destruct (toFixed_0 r) as (Htext & Hlo & Hhi); [lra|].
    set (n := Qfloor (r + (1 # 2))%Q) in *.
    eexists _, n, r. split; [reflexivity|]. cbn [Charts.text].
    split; [reflexivity|]. split; [rewrite Htext; reflexivity|].
    split; [|split; [exact Hlo | split; [exact Hhi | split; [exact Hr1 | exact Hr2]]]].
    split.
    + apply Z.lt_succ_r. unfold Z.succ. rewrite Z.add_comm, <- Z.lt_sub_lt_add_l.
      rewrite Zlt_Qlt. change (inject_Z (5 - 1)) with 4%Q. lra.
    + apply Z.lt_succ_r. unfold Z.succ. rewrite Zlt_Qlt, inject_Z_plus.
      change (inject_Z 100) with 100%Q. change (inject_Z 1) with 1%Q. lra.
  - assert (ltb (5404319552844595 # 72057594037927936) least = false) as ->
      by (vm_compute; reflexivity).
    vm_compute. reflexivity.
  - reflexivity.
Qed.

Lemma renderCustomLabel_threshold_witness :
  Charts.renderCustomLabel (fun _ => Double.Finite 1) (fun _ => Double.Finite 0)
    (Double.Finite 100) (Double.Finite 100) (Double.Finite 90)
    (Double.Finite 60) (Double.Finite 100) (Double.Finite (1 # 25)) = None.
Proof.
  apply (proj2 (proj1 (proj2 (renderCustomLabel_threshold
                  (fun _ => Double.Finite 1) (fun _ => Double.Finite 0)
                  (Double.Finite 100) (Double.Finite 100) (Double.Finite 90)
                  (Double.Finite 60) (Double.Finite 100) (1 # 25))))).
  unfold Qlt; simpl; lia.
Defined.

Lemma geb_ge x y : geb x y = true ↔ (y <= x)%Q.
Proof. unfold geb. apply Qle_bool_iff. Qed.

Lemma geb_lt x y : geb x y = false ↔ (x < y)%Q.
Proof.
  unfold geb. split.
  - intros H. apply Qnot_le_lt. intros Hle. apply Qle_bool_iff in Hle. congruence.
  - intros H. destruct (Qle_bool y x) eqn:E; [|done]. apply Qle_bool_iff in E. lra.
Qed.

(** X10.  The badge and the progress bar of a route item always show the
    same colour band: red from a completion rate of 80, yellow from 50 up
    to 80, gray under 50; a higher rate never gets a lower band. *)
Theorem route_colours_agree (rate : Q) :
  let badge := RouteList.badge_band (RouteList.getCompletionColor rate) in
  let bar := RouteList.bar_band (RouteList.getProgressColor rate) in
  badge = bar ∧
  (badge = Some RouteList.Red ↔ (80 <= rate)%Q) ∧
  (badge = Some RouteList.Yellow ↔ (50 <= rate)%Q ∧ (rate < 80)%Q) ∧
  (badge = Some RouteList.Gray ↔ (rate < 50)%Q) ∧
  (∀ higher b b',
     (rate <= higher)%Q →
     badge = Some b →
     RouteList.bar_band (RouteList.getProgressColor higher) = Some b' →
     RouteList.band_rank b ≤ RouteList.band_rank b').
Proof.
  intros badge bar. unfold badge, bar, RouteList.getCompletionColor, RouteList.getProgressColor.
  destruct (geb rate 80) eqn:E80; [|destruct (geb rate 50) eqn:E50].
  - apply geb_ge in E80. cbn. split; [done|]. split; [done|].
    split; [split; [done | lra]|]. split; [split; [done | lra]|].
    intros higher b b' Hle [= <-].
    assert (geb higher 80 = true) as -> by (apply geb_ge; lra). by intros [= <-].
  - apply geb_lt in E80. apply geb_ge in E50. cbn. split; [done|].
    split; [split; [done | lra]|]. split; [done|]. split; [split; [done | lra]|].
    intros higher b b' Hle [= <-].
    destruct (geb higher 80); [by intros [= <-]|].
    assert (geb higher 50 = true) as -> by (apply geb_ge; lra). by intros [= <-].
  - apply geb_lt in E80. apply geb_lt in E50. cbn. split; [done|].
    split; [split; [done | lra]|]. split; [split; [done | lra]|]. split; [done|].
    intros higher b b' Hle [= <-].
    destruct (geb higher 80); [by intros [= <-]|].
    destruct (geb higher 50); by intros [= <-].
Qed.

Lemma route_colours_agree_witness :
  RouteList.badge_band (RouteList.getCompletionColor 80) = Some RouteList.Red ↔ (80 <= 80)%Q.
Proof.
  destruct (route_colours_agree 80) as (_ & H & _). exact H.
Defined.

(** ** Resource keys *)

(** X11.  The three hooks never share a key, whatever the limit;
    two calls of [useRecentActivities] share a key exactly when their
    limits, 20 for a missing one, are equal.  [refreshAllData] requests the
    keys of the overview and of the charts, and never a key of the recent
    activities. *)
Theorem resource_keys_apart (limit limit' : option Z) :
  UseApi.key UseApi.useDashboardOverview ≠ UseApi.key UseApi.useChartsData ∧
  UseApi.key (UseApi.useRecentActivities limit) ≠ UseApi.key UseApi.useDashboardOverview ∧
  UseApi.key (UseApi.useRecentActivities limit) ≠ UseApi.key UseApi.useChartsData ∧
  (UseApi.key (UseApi.useRecentActivities limit) ∉ UseApi.refreshAllData_urls) ∧
  ((UseApi.key (UseApi.useRecentActivities limit)
    = UseApi.key (UseApi.useRecentActivities limit'))
   ↔ default 20 limit = default 20 limit') ∧
  (UseApi.key UseApi.useDashboardOverview ∈ UseApi.refreshAllData_urls) ∧
  (UseApi.key UseApi.useChartsData ∈ UseApi.refreshAllData_urls).
Proof.
  rewrite !activities_key.
  split; [done|]. split; [done|]. split; [done|]. split; [|split; [|split]].
  - cbn. intros [H|[H|[H|H%elem_of_nil]%elem_of_cons]%elem_of_cons]%elem_of_cons;
      try discriminate; try done.
  - split.
    + intros H. by apply String.app_inj, showZ_inj in H.
    + by intros ->.
  - cbn. by left.
  - cbn. right. by left.
Qed.

Lemma resource_keys_apart_witness :
  (UseApi.key (UseApi.useRecentActivities None)
   = UseApi.key (UseApi.useRecentActivities (Some 20)))
  ↔ default 20 None = default 20 (Some 20).
Proof.
  destruct (resource_keys_apart None (Some 20)) as (_ & _ & _ & _ & H & _). exact H.
Defined.

(** ** Durations in whole minutes *)

Lemma Math_round_int (n : Z) : Math_round (inject_Z n) = n.
Proof.
  unfold Math_round. apply Qfloor_unique.
  - lra.
  - rewrite inject_Z_plus. change (inject_Z 1) with 1%Q. lra.
Qed.

(** X12.  For a whole number of minutes within the safe integers
    [formatDuration] is exact, the division in doubles included: under 60
    the number followed by "min"; from 60 on the quotient by 60, at least
    1, as hours and the remainder, from 0 to 59, as minutes. *)
Theorem formatDuration_whole_minutes (n : Z) :
  safe_integer n →
  (n < 60 →
   Formatters.formatDuration (Some (Double.Finite (inject_Z n))) = showZ n +:+ "min") ∧
  (60 ≤ n →
   Formatters.formatDuration (Some (Double.Finite (inject_Z n)))
   = showZ (n / 60) +:+ "h " +:+ showZ (n mod 60) +:+ "m" ∧
   1 ≤ n / 60 ∧ 0 ≤ n mod 60 < 60).
Proof.
  intros Hsafe. unfold safe_integer in Hsafe.
  assert (2 ^ 53 < 10 ^ 21) as Hbig by (vm_compute; reflexivity).
  unfold Formatters.formatDuration. cbn [Double.lt Double.rem Double.round].
  change (Qeq_bool 60 0) with false. cbn iota. split.
  - intros H. assert (ltb (inject_Z n) 60 = true) as ->.
    { apply ltb_lt. change 60%Q with (inject_Z 60). by rewrite <- Zlt_Qlt. }
    rewrite Math_round_int. rewrite toString_Int; [done | lia].
  - intros H. assert (ltb (inject_Z n) 60 = false) as ->.
    { destruct (ltb (inject_Z n) 60) eqn:E; [|done]. apply ltb_lt in E.
      change 60%Q with (inject_Z 60) in E. rewrite <- Zlt_Qlt in E. lia. }
    assert (1 ≤ n / 60) as Hq by (apply Z.div_le_lower_bound; lia).
    assert (0 ≤ n mod 60 < 60) as Hr by (apply Z.mod_pos_bound; lia).
    assert (n / 60 ≤ n) as Hqn by (apply Z.div_le_upper_bound; lia).
    rewrite hours_exact.
    2: { apply is_double_int. lia. }
    2: { change 60%Q with (inject_Z 60). rewrite <- Zle_Qle. lia. }
    2: { rewrite <- Zlt_Qlt. lia. }
    assert (Qfloor (inject_Z n / 60) = n / 60) as ->.
    { change 60%Q with (inject_Z 60). symmetry. apply Zdiv_Qdiv. }
    cbn [Double.round].
    assert (Math_round (rem (inject_Z n) 60) = n mod 60) as ->.
    { unfold rem. rewrite trunc_nonneg.
      2: { apply Qle_shift_div_l; [lra|]. rewrite Qmult_0_l.
           change 0%Q with (inject_Z 0). rewrite <- Zle_Qle. lia. }
      change 60%Q with (inject_Z 60). rewrite <- Zdiv_Qdiv.
      rewrite <- (Math_round_int (n mod 60)). unfold Math_round. apply Qfloor_comp.
      rewrite (Z.mod_eq n 60) by lia. unfold Z.sub.
      rewrite inject_Z_plus, inject_Z_opp, inject_Z_mult. ring. }
    rewrite !toString_Int by lia.
    split; [reflexivity | split; [exact Hq | exact Hr]].
Qed.

Lemma formatDuration_whole_minutes_witness :
  Formatters.formatDuration (Some (Double.Finite (inject_Z 125)))
  = showZ (125 / 60) +:+ "h " +:+ showZ (125 mod 60) +:+ "m" ∧
  1 ≤ 125 / 60 ∧ 0 ≤ 125 mod 60 < 60.
Proof.
  apply (proj2 (formatDuration_whole_minutes 125 ltac:(unfold safe_integer; lia))). lia.
Defined.

(** ** The tab bodies *)

Lemma section_content f r sk names name r' :
  (∀ w, w ∈ sk → ∃ n, w = App.Skeleton n) →
  (∀ w, w ∈ names → ∃ n, w = App.Content n r) →
  App.Content name r' ∈ App.section f r sk names →
  r' = r ∧ App.present f r = true ∧ App.isLoading f r = false.
Proof.
  intros Hsk Hct. unfold App.section.
  destruct (App.isLoading f r), (App.present f r); intros H.
  - by destruct (Hsk _ H).
  - by destruct (Hsk _ H).
  - destruct (Hct _ H) as [n [= _ ->]]. done.
  - by apply elem_of_nil in H.
Qed.

Lemma section_skeleton f r sk names name :
  (∀ w, w ∈ names → ∃ n, w = App.Content n r) →
  App.Skeleton name ∈ App.section f r sk names → App.isLoading f r = true.
Proof.
  intros Hct. unfold App.section.
  destruct (App.isLoading f r), (App.present f r); intros H; try done.
  - by destruct (Hct _ H).
  - by apply elem_of_nil in H.
Qed.

Ltac all_of_kind :=
  let w := fresh "w" in let H := fresh "H" in
  intros w H; cbn in H; member_cases H; subst; eauto.

(** X13.  The tab bodies of the component render a data component only
    from data that is there, and a skeleton only while some resource is
    loading.  On the overview and analytics tabs a data component is never
    shown for a loading resource.  On the activities tab the skeletons
    follow the activities alone: while they load both skeletons are shown,
    whatever the charts; once they are loaded no skeleton is shown, and the
    route list appears exactly when the charts data is there. *)
Theorem body_renders_loaded_data (activeTab : App.TabType) (f : App.Feed) :
  (∀ name r, App.Content name r ∈ App.body activeTab f → App.present f r = true) ∧
  (activeTab ≠ App.activities →
   ∀ name r, App.Content name r ∈ App.body activeTab f → App.isLoading f r = false) ∧
  (∀ name, App.Skeleton name ∈ App.body activeTab f → ∃ r, App.isLoading f r = true) ∧
  (App.isLoading f App.Activities = false →
   (∀ name, App.Skeleton name ∉ App.body App.activities f) ∧
   (App.Content "RouteList" App.Charts ∈ App.body App.activities f
    ↔ App.present f App.Charts = true)) ∧
  (App.isLoading f App.Activities = true →
   App.body App.activities f
   = [App.Skeleton "ActivityListSkeleton"; App.Skeleton "RouteListSkeleton"]).
Proof.
  split; [|split; [|split; [|split]]].
  - intros name r. destruct activeTab; unfold App.body.
    + rewrite !elem_of_app. intros [H|[H|H]];
        apply section_content in H as (-> & H & _); try done; all_of_kind.
    + rewrite !elem_of_app. intros [H|[H|H]];
        apply section_content in H as (-> & H & _); try done; all_of_kind.
    + destruct (App.isLoading f App.Activities); [intros H; member_cases H|].
      unfold App.guarded. rewrite elem_of_app.
      destruct (App.present f App.Activities) eqn:EA, (App.present f App.Charts) eqn:EC;
        intros [H|H]; member_cases H; injection H as _ Hr; by subst r.
  - intros Htab name r. destruct activeTab; [| |done]; unfold App.body.
    + rewrite !elem_of_app. intros [H|[H|H]];
        apply section_content in H as (-> & _ & H); try done; all_of_kind.
    + rewrite !elem_of_app. intros [H|[H|H]];
        apply section_content in H as (-> & _ & H); try done; all_of_kind.
  - intros name. destruct activeTab; unfold App.body.
    + rewrite !elem_of_app. intros [H|[H|H]];
        apply section_skeleton in H; eauto; all_of_kind.
    + rewrite !elem_of_app. intros [H|[H|H]];
        apply section_skeleton in H; eauto; all_of_kind.
    + destruct (App.isLoading f App.Activities) eqn:E; [eauto|].
      unfold App.guarded. rewrite elem_of_app.
      destruct (App.present f App.Activities), (App.present f App.Charts);
        intros [H|H]; member_cases H.
  - intros Hload. unfold App.body. rewrite Hload. unfold App.guarded. split.
    + intros name. rewrite elem_of_app.
      destruct (App.present f App.Activities), (App.present f App.Charts);
        intros [H|H]; member_cases H.
    + rewrite elem_of_app.
      destruct (App.present f App.Activities), (App.present f App.Charts); split;
        try done; try (intros _; right; by left); try (intros _; by left);
        intros [H|H]; member_cases H.
  - intros Hload. unfold App.body. by rewrite Hload.
Qed.

Lemma body_renders_loaded_data_witness :
  let f := App.MkFeed (fun _ => true)
             (fun r => match r with App.Charts => true | _ => false end) in
  (∀ name, App.Skeleton name ∉ App.body App.activities f) ∧
  (App.Content "RouteList" App.Charts ∈ App.body App.activities f
   ↔ App.present f App.Charts = true).
Proof.
  intros f.
  destruct (body_renders_loaded_data App.activities f) as (_ & _ & _ & H & _).
  apply H. reflexivity.
Defined.
